(** * xor: byte-wise exclusive-or of two streams

    A shallow embedding of [xor_files] from [xor.c] together with the
    properties of its streaming loop, its zero padding and its
    trailing-zero stripping.

    Conventions of the embedding:
    - an [unsigned char] is a [Byte.byte]; [^] on two of them is [N.lxor]
      on their values, reduced modulo 256 when stored back;
    - a [size_t] is a [nat] (no buffer here comes near 2^64 bytes);
    - a [FILE *] opened for reading is the list of bytes it will still
      deliver, a flag telling whether the end of that list is a read
      error instead of end-of-file, and the two stdio indicators; only
      streams that end are covered: a source that never ends (a device
      such as [/dev/zero], a pipe that is never closed) is not a [FILE]
      here, and on such a source the loop of [xor_files] never ends;
    - the stack arrays [chunk1] and [chunk2] are maps from index to an
      optional byte, [None] standing for a cell that was never written;
    - [stdout] is the list of bytes [fwrite] has reported as written,
      the number of [fwrite] calls made, and the number of bytes after
      which [fwrite] will come back with a short count ([None]: never).
      [stdout] is buffered, so this is what the stream answers, not what
      the device has taken: a failure that shows only in [fflush], whose
      result line 200 does not look at, is not seen by the program, and
      is no short count here. A process killed by a signal ([SIGPIPE]
      keeps its default action, so writing to a pipe closed by its
      reader kills it) has no exit status of its own making and is not
      among the endings modelled;
    - [malloc]/[realloc] are taken to succeed, and the text sent to
      [stderr] by [progress] is left out of the engine; it is modelled
      apart, in [engine_stderr], and the command line around the engine
      in the module [Cli]. *)

From Stdlib Require Import Ascii String.
From Stdlib Require Import List Arith Lia NArith ZArith Bool.
From Stdlib Require Import Strings.Byte.
From Equations Require Import Equations.
Import ListNotations.

(** ** Bytes *)

(** Storing an [int] into an [unsigned char] keeps its low eight bits. *)
Definition byte_of_N (n : N) : byte :=
  match Byte.of_N (n mod 256) with
  | Some b => b
  | None => x00
  end.

(** [a ^ b] on two [unsigned char]s, stored into an [unsigned char]. *)
Definition byte_xor (a b : byte) : byte :=
  byte_of_N (N.lxor (Byte.to_N a) (Byte.to_N b)).

Definition is_zero (b : byte) : bool := Byte.eqb b x00.

(** ** Exit codes and tuning constants *)

Definition CHUNK_SIZE : nat := N.to_nat 65536.  (* 64KB chunks *)

Definition EXIT_SUCCESS : Z := 0.
Definition EXIT_ERROR : Z := 1.
Definition EXIT_USAGE : Z := 2.

(** ** Global state

    [interrupted] starts at 0 and is only written by [signal_handler],
    which then calls [die] and never returns to the loop;
    [preserve_zeros] is set by [-z] before [xor_files] is called. *)
Record globals := mkGlobals {
  interrupted : bool;
  preserve_zeros : bool
}.

(** ** Input streams *)

Record FILE := mkFILE {
  pending : list byte;   (* bytes the stream still delivers, then it ends *)
  broken : bool;         (* the end of [pending] is a read error, not EOF *)
  eof_ind : bool;        (* what [feof] would report *)
  err_ind : bool         (* what [ferror] would report *)
}.

(** A stream freshly opened on a source holding [content]. *)
Definition open_input_stream (content : list byte) : FILE :=
  mkFILE content false false false.

(** A stream whose device fails once [content] has been delivered. *)
Definition failing_input_stream (content : list byte) : FILE :=
  mkFILE content true false false.

(** ** Arrays of [unsigned char] *)

Definition buffer := nat -> option byte.

Definition uninitialised : buffer := fun _ => None.

Definition store (buf : buffer) (off : nat) (src : list byte) : buffer :=
  fun i =>
    if (off <=? i) && (i <? off + length src)
    then nth_error src (i - off)
    else buf i.

Definition memset (buf : buffer) (off : nat) (c : byte) (n : nat) : buffer :=
  fun i => if (off <=? i) && (i <? off + n) then Some c else buf i.

(** [fread(ptr, 1, nmemb, stream)]: the count returned is short only at
    end-of-file or on a read error, and the matching indicator is set. *)
Definition fread (ptr : buffer) (nmemb : nat) (stream : FILE)
  : nat * buffer * FILE :=
  let got := firstn nmemb (pending stream) in
  let short := length got <? nmemb in
  (length got,
   store ptr 0 got,
   {| pending := skipn nmemb (pending stream);
      broken := broken stream;
      eof_ind := eof_ind stream || (short && negb (broken stream));
      err_ind := err_ind stream || (short && broken stream) |}).

(** The stream as [fread] leaves it. *)
Definition after_fread (N : nat) (f : FILE) : FILE :=
  snd (fread uninitialised N f).

(** The stream once it has been read to its end with a block size that
    is not zero: nothing is pending and the indicator of its end is set. *)
Definition drained (f : FILE) : FILE :=
  {| pending := [];
     broken := broken f;
     eof_ind := eof_ind f || negb (broken f);
     err_ind := err_ind f || broken f |}.

(** ** The output stream *)

Record SINK := mkSINK {
  sunk : list byte;      (* bytes [fwrite] has reported as written *)
  room : option nat;     (* bytes [fwrite] still reports as written before
                            a short count, [None]: no limit *)
  calls : nat            (* number of [fwrite] calls made on it *)
}.

Definition fresh_stdout : SINK := mkSINK [] None 0.

(** [fwrite(ptr, 1, nmemb, stdout)]: returns the number of bytes written,
    fewer than [nmemb] only when the stream reports a write error. When
    that happens is the stream's affair ([room]); a device that is full
    does not by itself make a buffered [fwrite] come back short. *)
Definition fwrite (ptr : list byte) (nmemb : nat) (out : SINK) : nat * SINK :=
  let want := firstn nmemb ptr in
  let n := match room out with
           | None => length want
           | Some r => Nat.min r (length want)
           end in
  (n, {| sunk := sunk out ++ firstn n want;
         room := option_map (fun r => r - n) (room out);
         calls := S (calls out) |}).

(** ** The read loop of [xor_files] *)

Record locals := mkLocals {
  stream1 : FILE;
  stream2 : FILE;
  all_data : list byte;
  total_size : nat;
  bytes_processed : nat
}.

Inductive flow : Type :=
| Break (l : locals)        (* the loop is left *)
| Continue (l : locals)     (* the body ran to its end *)
| Undefined.                (* a cell that was never written was read *)

(** [for (i = 0; i < max_len; i++) result_chunk[i] = chunk1[i] ^ chunk2[i];]
    started at index [i] with [n] indices to go. *)
Fixpoint xor_chunks (chunk1 chunk2 : buffer) (i n : nat) : option (list byte) :=
  match n with
  | 0 => Some []
  | S n' =>
      match chunk1 i, chunk2 i with
      | Some a, Some b =>
          match xor_chunks chunk1 chunk2 (S i) n' with
          | Some rest => Some (byte_xor a b :: rest)
          | None => None
          end
      | _, _ => None
      end
  end.

(** The body of the loop, lines 139-182, for a block size [N]. *)
Definition iteration (N : nat) (l : locals) : flow :=
  let '(read1, chunk1, s1) := fread uninitialised N (stream1 l) in
  let '(read2, chunk2, s2) := fread uninitialised N (stream2 l) in
  if (read1 =? 0) && (read2 =? 0) then
    Break (mkLocals s1 s2 (all_data l) (total_size l) (bytes_processed l))
  else
    let max_len := if read2 <? read1 then read1 else read2 in
    let chunk1 := if read1 <? max_len
                  then memset chunk1 read1 x00 (max_len - read1) else chunk1 in
    let chunk2 := if read2 <? max_len
                  then memset chunk2 read2 x00 (max_len - read2) else chunk2 in
    match xor_chunks chunk1 chunk2 0 max_len with
    | None => Undefined
    | Some result_chunk =>
        Continue (mkLocals s1 s2
                    (all_data l ++ result_chunk)
                    (total_size l + max_len)
                    (bytes_processed l + max_len))
    end.

(** One trip through [while (!interrupted) { ... }]. *)
Definition loop_step (N : nat) (g : globals) (l : locals) : flow :=
  if interrupted g then Break l else iteration N l.

(** Case analysis on a value that keeps the equation with it. *)
Definition inspect {A : Type} (x : A) : {y : A | x = y} := exist _ x eq_refl.

Definition remaining (l : locals) : nat :=
  length (pending (stream1 l)) + length (pending (stream2 l)).

Equations? read_loop (N : nat) (g : globals) (l : locals) : option locals
  by wf (remaining l) lt :=
  read_loop N g l with inspect (loop_step N g l) => {
    | exist _ (Break l') _ => Some l';
    | exist _ (Continue l') e => read_loop N g l';
    | exist _ Undefined _ => None }.
Proof.
  unfold loop_step, iteration, fread in e.
  destruct (interrupted g); [discriminate|].
  destruct ((length (firstn N (pending (stream1 l))) =? 0)
            && (length (firstn N (pending (stream2 l))) =? 0)) eqn:Hz;
    [discriminate|].
  match type of e with
  | match ?x with _ => _ end = _ => destruct x; [|discriminate]
  end.
  injection e as <-. unfold remaining; simpl.
  rewrite !length_skipn.
  rewrite !length_firstn in Hz.
  apply andb_false_iff in Hz.
  destruct Hz as [Hz|Hz]; apply Nat.eqb_neq in Hz; lia.
Qed.

(** ** Trailing zeros

    [while (output_size > 0 && all_data[output_size - 1] == 0) output_size--;]
    [None] is a read outside [all_data]. *)
Fixpoint strip (all_data : list byte) (output_size : nat) : option nat :=
  match output_size with
  | 0 => Some 0
  | S k =>
      match nth_error all_data k with
      | Some b => if is_zero b then strip all_data k else Some output_size
      | None => None
      end
  end.

(** ** [xor_files] *)

(** The endings of [xor_files] of the program's own making; the death of
    the process by a signal is not one of them. *)
Inductive outcome : Type :=
| Returned (out : SINK) (s1 s2 : FILE)          (* [xor_files] returns *)
| Died (msg : string) (code : Z) (out : SINK)   (* [die(msg, code)] *)
| Stuck.                                        (* undefined behaviour *)

Definition xor_files_with (N : nat) (g : globals)
    (file1 file2 : FILE) (stdout : SINK) : outcome :=
  match read_loop N g (mkLocals file1 file2 [] 0 0) with
  | None => Stuck
  | Some l =>
      let output_size :=
        if negb (preserve_zeros g) && (0 <? total_size l)
        then strip (all_data l) (total_size l)
        else Some (total_size l) in
      match output_size with
      | None => Stuck
      | Some output_size =>
          if 0 <? output_size then
            let '(written, stdout') := fwrite (all_data l) output_size stdout in
            if negb (written =? output_size)
            then Died "write error"%string EXIT_ERROR stdout'
            else Returned stdout' (stream1 l) (stream2 l)
          else Returned stdout (stream1 l) (stream2 l)
      end
  end.

Definition xor_files : globals -> FILE -> FILE -> SINK -> outcome :=
  xor_files_with CHUNK_SIZE.

(** The exit status of the process: [main] returns [EXIT_SUCCESS] when
    [xor_files] returns, and [die] exits with its code. *)
Definition exit_status (o : outcome) : option Z :=
  match o with
  | Returned _ _ _ => Some EXIT_SUCCESS
  | Died _ code _ => Some code
  | Stuck => None
  end.

(** The globals as [main] leaves them before calling [xor_files]. *)
Definition startup (preserve : bool) : globals := mkGlobals false preserve.

(** A whole successful run on two sources holding [A] and [B], writing
    to an empty output that accepts everything: the bytes produced. *)
Definition xor_with (N : nat) (preserve : bool) (A B : list byte)
  : option (list byte) :=
  match xor_files_with N (startup preserve)
          (open_input_stream A) (open_input_stream B) fresh_stdout with
  | Returned out _ _ => Some (sunk out)
  | _ => None
  end.

Definition xor : bool -> list byte -> list byte -> option (list byte) :=
  xor_with CHUNK_SIZE.

(** ** The diagnostic stream of the engine

    What [xor_files] sends to [stderr] from "XORing input streams" on,
    one value per line; the numbers are the arguments of the [%zu]
    conversions. [show_progress] is the global set by [-p]. *)

Inductive message : Type :=
| Line (text : string)
| Processed (bytes : nat)                   (* "processed %zu bytes" *)
| Complete (processed size : nat) (preserved : bool).
    (* "XOR complete: %zu bytes processed, %zu bytes %s" *)

(** [progress(message)]: printed only with [-p]. *)
Definition progress (show_progress : bool) (m : message) : list message :=
  if show_progress then [m] else [].

(** The end of the loop body, lines 179-182, once [bytes_processed] has
    been updated. *)
Definition progress_every_16_chunks (N : nat) (show_progress : bool)
    (l : locals) : list message :=
  if show_progress && (bytes_processed l mod (N * 16) =? 0)
  then progress show_progress (Processed (bytes_processed l))
  else [].

(** The lines the read loop prints, trip after trip. *)
Equations? loop_progress (N : nat) (g : globals) (show_progress : bool)
    (l : locals) : list message by wf (remaining l) lt :=
  loop_progress N g show_progress l with inspect (loop_step N g l) => {
    | exist _ (Break _) _ => [];
    | exist _ (Continue l') e =>
        progress_every_16_chunks N show_progress l'
        ++ loop_progress N g show_progress l';
    | exist _ Undefined _ => [] }.
Proof.
  unfold loop_step, iteration, fread in e.
  destruct (interrupted g); [discriminate|].
  destruct ((length (firstn N (pending (stream1 l))) =? 0)
            && (length (firstn N (pending (stream2 l))) =? 0)) eqn:Hz;
    [discriminate|].
  match type of e with
  | match ?x with _ => _ end = _ => destruct x; [|discriminate]
  end.
  injection e as <-. unfold remaining; simpl.
  rewrite !length_skipn.
  rewrite !length_firstn in Hz.
  apply andb_false_iff in Hz.
  destruct Hz as [Hz|Hz]; apply Nat.eqb_neq in Hz; lia.
Qed.

(** The lines of a whole run of the engine on two open streams: the
    loop, then either the message of [die] or the closing summary. *)
Definition engine_stderr (N : nat) (g : globals) (show_progress : bool)
    (file1 file2 : FILE) (stdout : SINK) : list message :=
  progress show_progress (Line "XORing input streams")
  ++ loop_progress N g show_progress (mkLocals file1 file2 [] 0 0)
  ++ match read_loop N g (mkLocals file1 file2 [] 0 0) with
     | None => []
     | Some l =>
         let output_size :=
           if negb (preserve_zeros g) && (0 <? total_size l)
           then strip (all_data l) (total_size l)
           else Some (total_size l) in
         match output_size with
         | None => []
         | Some output_size =>
             let summary :=
               progress show_progress
                 (Complete (bytes_processed l) output_size (preserve_zeros g)) in
             if 0 <? output_size then
               let '(written, _) := fwrite (all_data l) output_size stdout in
               if negb (written =? output_size)
               then [Line "write error"]
               else summary
             else summary
         end
     end.

(** ** Reference definitions, written from the specification *)

(** Byte-wise exclusive-or of the two sequences, the shorter one read as
    if followed by zero bytes. *)
Definition naive_xor (A B : list byte) : list byte :=
  map (fun i => byte_xor (nth i A x00) (nth i B x00))
      (seq 0 (Nat.max (length A) (length B))).

Fixpoint drop_zeros (l : list byte) : list byte :=
  match l with
  | [] => []
  | b :: l' => if is_zero b then drop_zeros l' else l
  end.

(** The sequence without its trailing run of zero bytes. *)
Definition trim (l : list byte) : list byte := rev (drop_zeros (rev l)).

(** The bytes to deliver, from the assembled ones. *)
Definition final_output (preserve : bool) (data : list byte) : list byte :=
  if preserve then data else trim data.

(** [l] followed by zero bytes up to length [n]. *)
Definition pad_to (n : nat) (l : list byte) : list byte :=
  l ++ repeat x00 (n - length l).

(** ** The command line around the engine

    What the operating system and the C library answer is a parameter:
    [stat], [access(_, R_OK)], [fopen(_, "rb")] with the [errno] of a
    failure, [strerror], and the state of [stdin]. The calls of
    [getopt_long] are given by the values it returns before [-1] and by
    the arguments left from [optind] on. The texts printed by
    [show_help], [show_version] and [getopt_long] itself are left out. *)

Module Cli.

Local Open Scope string_scope.

(** [<signal.h>], [<errno.h>] and [<limits.h>], with their Linux values. *)
Definition SIGHUP : Z := 1.
Definition SIGINT : Z := 2.
Definition SIGPIPE : Z := 13.
Definition SIGTERM : Z := 15.
Definition ENOENT : Z := 2.
Definition EACCES : Z := 13.
Definition INT_MAX : Z := 2147483647.

(** The message and the exit code [signal_handler] hands to [die], for
    an [int] [signum]. [128 + signum] is an addition of [int]s: [None]
    when it overflows, which C leaves undefined. *)
Definition signal_handler (signum : Z) : option (string * Z) :=
  if (signum =? SIGINT)%Z then Some ("interrupted", 130%Z)
  else if (signum =? SIGTERM)%Z then Some ("terminated", 143%Z)
  else if (signum =? SIGHUP)%Z then Some ("hangup", 129%Z)
  else if (128 + signum <=? INT_MAX)%Z
  then Some ("received signal", (128 + signum)%Z)
  else None.

(** What [signal] is asked to do with a signal. *)
Inductive disposition : Type :=
| SIG_DFL       (* the default action *)
| Handler.      (* [signal_handler] *)

(** The calls of [signal] in [setup_signal_handling], in order. *)
Definition setup_signal_handling : list (Z * disposition) :=
  [(SIGPIPE, SIG_DFL); (SIGINT, Handler); (SIGTERM, Handler);
   (SIGHUP, Handler)].

(** The file types [st_mode] tells apart. *)
Inductive file_type : Type :=
| S_IFREG | S_IFDIR | S_IFCHR | S_IFBLK | S_IFIFO | S_IFSOCK.

Record stat_t := mkStat {
  st_dev : Z;
  st_ino : Z;
  st_mode : file_type
}.

Record OS := mkOS {
  stat : string -> option stat_t;      (* [None]: [stat] returns non-zero *)
  access_R_OK : string -> bool;         (* [access(name, R_OK) == 0] *)
  fopen_rb : string -> FILE + Z;        (* the stream, or [errno] *)
  strerror : Z -> string;
  stdin : FILE
}.

Definition S_ISREG (m : file_type) : bool :=
  match m with S_IFREG => true | _ => false end.
Definition S_ISFIFO (m : file_type) : bool :=
  match m with S_IFIFO => true | _ => false end.
Definition S_ISCHR (m : file_type) : bool :=
  match m with S_IFCHR => true | _ => false end.

(** [snprintf(error_msg, sizeof(error_msg), ...)] into [char error_msg[256]]. *)
Definition snprintf_256 (text : string) : string := substring 0 255 text.

(** [None] when the function returns, the arguments of [die] otherwise. *)
Definition validate_file_access (os : OS) (filename description : string)
  : option (string * Z) :=
  if filename =? "-" then None
  else
    match stat os filename with
    | None =>
        Some (snprintf_256 (description ++ " not found: " ++ filename),
              EXIT_USAGE)
    | Some st =>
        if negb (S_ISREG (st_mode st)) && negb (S_ISFIFO (st_mode st))
           && negb (S_ISCHR (st_mode st))
        then Some (snprintf_256
                     (description ++ " is not a readable file: " ++ filename),
                   EXIT_USAGE)
        else if negb (access_R_OK os filename)
        then Some (snprintf_256
                     ("cannot read " ++ description ++ ": " ++ filename),
                   EXIT_USAGE)
        else None
    end.

Definition is_same_file (os : OS) (file1 file2 : string) : bool :=
  if (file1 =? "-") || (file2 =? "-") then false
  else
    match stat os file1, stat os file2 with
    | Some st1, Some st2 =>
        (st_dev st1 =? st_dev st2)%Z && (st_ino st1 =? st_ino st2)%Z
    | _, _ => false
    end.

(** The stream, or the arguments of [die]. *)
Definition open_input_stream (os : OS) (filename : string)
  : FILE + string * Z :=
  if filename =? "-" then inl (stdin os)
  else
    match fopen_rb os filename with
    | inl fp => inl fp
    | inr errno =>
        if (errno =? ENOENT)%Z then inr ("file not found", EXIT_USAGE)
        else if (errno =? EACCES)%Z then inr ("permission denied", EXIT_USAGE)
        else inr (snprintf_256
                    ("cannot open " ++ filename ++ ": " ++ strerror os errno),
                  EXIT_ERROR)
    end.

(** [xor_files(file1, file2)]: both streams are opened, then the engine
    runs on them. [main] never passes ["-"] twice. *)
Definition xor_files (os : OS) (g : globals) (file1 file2 : string)
    (stdout : SINK) : outcome :=
  match open_input_stream os file1 with
  | inr (msg, code) => Died msg code stdout
  | inl stream1 =>
      match open_input_stream os file2 with
      | inr (msg, code) => Died msg code stdout
      | inl stream2 => xor_files g stream1 stream2 stdout
      end
  end.

Record flags := mkFlags {
  show_progress : bool;
  preserve : bool
}.

(** The ways [main] ends before it calls [xor_files]. *)
Inductive early : Type :=
| Help                              (* [show_help(); exit(EXIT_SUCCESS)] *)
| Version                           (* [show_version(); exit(EXIT_SUCCESS)] *)
| Bad_option                        (* ['?'] or an unexpected value *)
| Bad_count                         (* not exactly two file arguments *)
| Die (msg : string) (code : Z).    (* [die(msg, code)] *)

(** The [while ((c = getopt_long(...)) != -1) switch (c)] loop, on the
    values [getopt_long] returns. *)
Fixpoint getopt_loop (cs : list ascii) (fl : flags) : early + flags :=
  match cs with
  | [] => inr fl
  | c :: cs' =>
      if Ascii.eqb c "h" then inl Help
      else if Ascii.eqb c "p" then getopt_loop cs' (mkFlags true (preserve fl))
      else if Ascii.eqb c "z"
      then getopt_loop cs' (mkFlags (show_progress fl) true)
      else if Ascii.eqb c "V" then inl Version
      else inl Bad_option
  end.

(** The values [getopt_long] returns for [-p] and [-z]. *)
Definition is_flag (c : ascii) : bool := Ascii.eqb c "p" || Ascii.eqb c "z".

(** [main] up to the call of [xor_files]: the flags and the two names it
    passes on, or the way it ends. *)
Definition main_checks (os : OS) (opts : list ascii) (args : list string)
  : early + flags * string * string :=
  match getopt_loop opts (mkFlags false false) with
  | inl e => inl e
  | inr fl =>
      match args with
      | [file1; file2] =>
          match validate_file_access os file1 "first input file" with
          | Some (msg, code) => inl (Die msg code)
          | None =>
              match validate_file_access os file2 "second input file" with
              | Some (msg, code) => inl (Die msg code)
              | None =>
                  let stdin_count :=
                    (if file1 =? "-" then 1 else 0)
                    + (if file2 =? "-" then 1 else 0) in
                  if (1 <? stdin_count)%nat
                  then inl (Die "cannot read multiple files from stdin"
                              EXIT_USAGE)
                  else if is_same_file os file1 file2
                  then inl (Die "cannot use the same file for both inputs"
                              EXIT_USAGE)
                  else inr (fl, file1, file2)
              end
          end
      | _ => inl Bad_count
      end
  end.

Definition main (os : OS) (opts : list ascii) (args : list string)
    (stdout : SINK) : early + outcome :=
  match main_checks os opts args with
  | inl e => inl e
  | inr (fl, file1, file2) =>
      inr (xor_files os (mkGlobals false (preserve fl)) file1 file2 stdout)
  end.

(** The exit status of the process. *)
Definition status (r : early + outcome) : option Z :=
  match r with
  | inl Help | inl Version => Some EXIT_SUCCESS
  | inl Bad_option | inl Bad_count => Some EXIT_USAGE
  | inl (Die _ code) => Some code
  | inr o => exit_status o
  end.

(** A small system for worked examples: [a] holds 0x41 0x42, [b] holds
    0x01, [link] is a second name of [a], [dir] is a directory, and
    [stdin] delivers 0x01 0x00. *)
Definition example_os : OS :=
  {| stat := fun name =>
       if name =? "a" then Some (mkStat 1 10 S_IFREG)
       else if name =? "b" then Some (mkStat 1 11 S_IFREG)
       else if name =? "link" then Some (mkStat 1 10 S_IFREG)
       else if name =? "dir" then Some (mkStat 1 12 S_IFDIR)
       else None;
     access_R_OK := fun name =>
       (name =? "a") || (name =? "b") || (name =? "link") || (name =? "dir");
     fopen_rb := fun name =>
       if (name =? "a") || (name =? "link")
       then inl (mkFILE [x41; x42] false false false)
       else if name =? "b" then inl (mkFILE [x01] false false false)
       else inr ENOENT;
     strerror := fun _ => "error";
     stdin := mkFILE [x01; x00] false false false |}.

End Cli.

(** * Properties *)

(** ** Bytes *)

Lemma to_N_lt_256 (b : byte) : (Byte.to_N b < 256)%N.
Proof. pose proof (Byte.to_N_bounded b). lia. Qed.

Lemma to_N_byte_of_N (n : N) : Byte.to_N (byte_of_N n) = (n mod 256)%N.
Proof.
  unfold byte_of_N.
  destruct (Byte.of_N (n mod 256)) as [b|] eqn:E.
  - now apply Byte.to_of_N.
  - apply Byte.of_N_None_iff in E.
    pose proof (N.mod_upper_bound n 256). lia.
Qed.

Lemma byte_of_to_N (b : byte) : byte_of_N (Byte.to_N b) = b.
Proof.
  unfold byte_of_N.
  rewrite N.mod_small by apply to_N_lt_256.
  now rewrite Byte.of_to_N.
Qed.

Lemma to_N_inj (a b : byte) : Byte.to_N a = Byte.to_N b -> a = b.
Proof.
  intros H. rewrite <- (byte_of_to_N a), <- (byte_of_to_N b). now rewrite H.
Qed.

Lemma lxor_lt_256 (m n : N) :
  (m < 256)%N -> (n < 256)%N -> (N.lxor m n < 256)%N.
Proof.
  intros Hm Hn.
  destruct (N.eq_dec (N.lxor m n) 0) as [->|Hx]; [lia|].
  apply (N.log2_lt_pow2 _ 8); [lia|].
  pose proof (N.log2_lxor m n) as Hl.
  assert (Hb : forall k, (k < 256)%N -> (N.log2 k < 8)%N).
  { intros k Hk. destruct (N.eq_dec k 0) as [->|Hk0]; [reflexivity|].
    apply N.log2_lt_pow2; lia. }
  specialize (Hb m Hm) as Hbm. specialize (Hb n Hn) as Hbn. lia.
Qed.

Lemma to_N_byte_xor (a b : byte) :
  Byte.to_N (byte_xor a b) = N.lxor (Byte.to_N a) (Byte.to_N b).
Proof.
  unfold byte_xor. rewrite to_N_byte_of_N.
  apply N.mod_small, lxor_lt_256; apply to_N_lt_256.
Qed.

Lemma byte_xor_comm (a b : byte) : byte_xor a b = byte_xor b a.
Proof. unfold byte_xor. now rewrite N.lxor_comm. Qed.

Lemma byte_xor_x00_r (a : byte) : byte_xor a x00 = a.
Proof.
  apply to_N_inj. rewrite to_N_byte_xor. change (Byte.to_N x00) with 0%N.
  apply N.lxor_0_r.
Qed.

Lemma byte_xor_x00_l (a : byte) : byte_xor x00 a = a.
Proof. rewrite byte_xor_comm. apply byte_xor_x00_r. Qed.

Lemma byte_xor_cancel_r (a b : byte) : byte_xor (byte_xor a b) b = a.
Proof.
  apply to_N_inj. rewrite !to_N_byte_xor.
  now rewrite N.lxor_assoc, N.lxor_nilpotent, N.lxor_0_r.
Qed.

Lemma byte_xor_cancel_l (a b : byte) : byte_xor (byte_xor a b) a = b.
Proof. rewrite (byte_xor_comm a b). apply byte_xor_cancel_r. Qed.

Lemma byte_xor_self (a : byte) : byte_xor a a = x00.
Proof.
  apply to_N_inj. rewrite to_N_byte_xor. now rewrite N.lxor_nilpotent.
Qed.

Lemma is_zero_true (b : byte) : is_zero b = true <-> b = x00.
Proof.
  unfold is_zero. split.
  - apply Byte.byte_dec_bl.
  - apply Byte.byte_dec_lb.
Qed.

Lemma is_zero_false (b : byte) : is_zero b = false <-> b <> x00.
Proof.
  rewrite <- is_zero_true. destruct (is_zero b); split; congruence.
Qed.

(** ** The reference exclusive-or *)

Lemma length_naive_xor (A B : list byte) :
  length (naive_xor A B) = Nat.max (length A) (length B).
Proof. unfold naive_xor. now rewrite length_map, length_seq. Qed.

Lemma nth_naive_xor (A B : list byte) (i : nat) :
  nth i (naive_xor A B) x00 = byte_xor (nth i A x00) (nth i B x00).
Proof.
  destruct (Nat.lt_ge_cases i (Nat.max (length A) (length B))) as [Hi|Hi].
  - unfold naive_xor.
    set (f := fun k => byte_xor (nth k A x00) (nth k B x00)).
    rewrite (nth_indep _ x00 (f 0)) by now rewrite length_map, length_seq.
    rewrite map_nth, seq_nth by assumption. reflexivity.
  - rewrite !nth_overflow; [| lia | lia | rewrite length_naive_xor; lia].
    symmetry. apply byte_xor_self.
Qed.

(** Two byte sequences of one length with the same byte at every index. *)
Lemma bytes_ext (l l' : list byte) :
  length l = length l' ->
  (forall i, i < length l -> nth i l x00 = nth i l' x00) ->
  l = l'.
Proof. intros Hlen Hnth. now apply (nth_ext l l' x00 x00). Qed.

Lemma naive_xor_comm (A B : list byte) : naive_xor A B = naive_xor B A.
Proof.
  apply bytes_ext.
  - rewrite !length_naive_xor. apply Nat.max_comm.
  - intros i _. rewrite !nth_naive_xor. apply byte_xor_comm.
Qed.

Lemma naive_xor_nil_r (A : list byte) : naive_xor A [] = A.
Proof.
  apply bytes_ext.
  - rewrite length_naive_xor. simpl. lia.
  - intros i _. rewrite nth_naive_xor.
    replace (nth i [] x00) with x00 by now destruct i.
    apply byte_xor_x00_r.
Qed.

Lemma naive_xor_nil_l (A : list byte) : naive_xor [] A = A.
Proof. rewrite naive_xor_comm. apply naive_xor_nil_r. Qed.

(** Processing a block of [N] bytes first and the rest afterwards. *)
Lemma naive_xor_blocks (N : nat) (A B : list byte) :
  naive_xor A B =
  naive_xor (firstn N A) (firstn N B) ++ naive_xor (skipn N A) (skipn N B).
Proof.
  apply bytes_ext.
  - rewrite length_app, !length_naive_xor, !length_firstn, !length_skipn. lia.
  - intros i _.
    destruct (Nat.lt_ge_cases i
                (length (naive_xor (firstn N A) (firstn N B)))) as [Hi|Hi].
    + rewrite app_nth1 by assumption.
      rewrite length_naive_xor, !length_firstn in Hi.
      rewrite !nth_naive_xor, !nth_firstn.
      assert (Hlt : (i <? N) = true) by (apply Nat.ltb_lt; lia).
      now rewrite Hlt.
    + rewrite app_nth2 by assumption.
      rewrite length_naive_xor, !length_firstn in *.
      rewrite !nth_naive_xor, !nth_skipn.
      destruct (Nat.le_gt_cases N (Nat.max (length A) (length B))) as [HN|HN].
      * replace (N + (i - Nat.max (Nat.min N (length A)) (Nat.min N (length B))))
          with i by lia.
        reflexivity.
      * rewrite !(nth_overflow A), !(nth_overflow B) by lia. reflexivity.
Qed.

Lemma nth_pad_to (n i : nat) (l : list byte) :
  nth i (pad_to n l) x00 = nth i l x00.
Proof.
  unfold pad_to.
  destruct (Nat.lt_ge_cases i (length l)) as [Hi|Hi].
  - now rewrite app_nth1.
  - rewrite app_nth2, nth_repeat by assumption. now rewrite nth_overflow.
Qed.

Lemma length_pad_to (n : nat) (l : list byte) :
  length (pad_to n l) = Nat.max n (length l).
Proof. unfold pad_to. rewrite length_app, repeat_length. lia. Qed.

Lemma pad_to_short (n : nat) (l : list byte) : n <= length l -> pad_to n l = l.
Proof.
  intros H. unfold pad_to. replace (n - length l) with 0 by lia.
  apply app_nil_r.
Qed.

(** Applying the second operand again gives the first one back, padded. *)
Lemma naive_xor_cancel_r (A B : list byte) :
  naive_xor (naive_xor A B) B = pad_to (Nat.max (length A) (length B)) A.
Proof.
  apply bytes_ext.
  - rewrite length_pad_to, !length_naive_xor. lia.
  - intros i _. rewrite nth_pad_to, !nth_naive_xor. apply byte_xor_cancel_r.
Qed.

Lemma naive_xor_cancel_l (A B : list byte) :
  naive_xor (naive_xor A B) A = pad_to (Nat.max (length A) (length B)) B.
Proof.
  apply bytes_ext.
  - rewrite length_pad_to, !length_naive_xor. lia.
  - intros i _. rewrite nth_pad_to, !nth_naive_xor. apply byte_xor_cancel_l.
Qed.

(** ** Trailing zeros *)

Lemma trim_snoc (l : list byte) (b : byte) :
  trim (l ++ [b]) = if is_zero b then trim l else l ++ [b].
Proof.
  unfold trim. rewrite rev_app_distr. simpl.
  destruct (is_zero b); [reflexivity|].
  simpl. now rewrite rev_involutive.
Qed.

Lemma trim_nil : trim [] = [].
Proof. reflexivity. Qed.

(** [trim] only removes a suffix, and that suffix is made of zeros. *)
Lemma trim_suffix (l : list byte) :
  exists k, l = trim l ++ repeat x00 k.
Proof.
  induction l as [|b l IH] using rev_ind.
  - exists 0. reflexivity.
  - rewrite trim_snoc. destruct (is_zero b) eqn:E.
    + destruct IH as [k IH]. exists (S k).
      apply is_zero_true in E. subst b.
      rewrite IH at 1. rewrite <- app_assoc. f_equal.
      change [x00] with (repeat x00 1).
      rewrite <- repeat_app. f_equal. lia.
    + exists 0. simpl. now rewrite app_nil_r.
Qed.

(** What [trim] leaves does not end in a zero. *)
Lemma trim_last (l : list byte) : trim l = [] \/ last (trim l) x00 <> x00.
Proof.
  induction l as [|b l IH] using rev_ind.
  - now left.
  - rewrite trim_snoc. destruct (is_zero b) eqn:E; [assumption|].
    right. rewrite last_last. now apply is_zero_false.
Qed.

Lemma trim_all_zero (l : list byte) :
  (forall b, In b l -> b = x00) -> trim l = [].
Proof.
  induction l as [|b l IH] using rev_ind; intros H.
  - reflexivity.
  - rewrite trim_snoc.
    assert (E : is_zero b = true).
    { apply is_zero_true, H, in_or_app. right. now left. }
    rewrite E. apply IH. intros c Hc. apply H, in_or_app. now left.
Qed.

Lemma trim_idempotent (l : list byte) : trim (trim l) = trim l.
Proof.
  induction l as [|b l IH] using rev_ind.
  - reflexivity.
  - rewrite trim_snoc. destruct (is_zero b) eqn:E; [assumption|].
    now rewrite trim_snoc, E.
Qed.

Lemma length_trim (l : list byte) : length (trim l) <= length l.
Proof.
  destruct (trim_suffix l) as [k Hk].
  rewrite Hk at 2. rewrite length_app. lia.
Qed.

Lemma firstn_trim (l : list byte) : firstn (length (trim l)) l = trim l.
Proof.
  destruct (trim_suffix l) as [k Hk].
  rewrite Hk at 2. rewrite firstn_app, firstn_all, Nat.sub_diag.
  simpl. apply app_nil_r.
Qed.

(** The stripping loop looks only at the cells below [output_size]. *)
Lemma strip_app (l t : list byte) (n : nat) :
  n <= length l -> strip (l ++ t) n = strip l n.
Proof.
  induction n as [|n IH]; intros Hn; simpl.
  - reflexivity.
  - rewrite nth_error_app1 by lia.
    destruct (nth_error l n) as [b|]; [|reflexivity].
    destruct (is_zero b); [apply IH; lia | reflexivity].
Qed.

(** The stripping loop never reads outside [all_data] and stops at the
    length of the trimmed sequence. *)
Lemma strip_spec (l : list byte) : strip l (length l) = Some (length (trim l)).
Proof.
  induction l as [|b l IH] using rev_ind.
  - reflexivity.
  - rewrite length_app, Nat.add_comm. simpl.
    rewrite nth_error_app2, Nat.sub_diag by lia. simpl.
    rewrite trim_snoc. destruct (is_zero b).
    + rewrite strip_app by lia. apply IH.
    + now rewrite length_app, Nat.add_comm.
Qed.

(** ** Writing to [stdout] *)

Lemma fwrite_firstn (l l' : list byte) (n n' : nat) (out : SINK) :
  firstn n l = firstn n' l' -> fwrite l n out = fwrite l' n' out.
Proof. intros H. unfold fwrite. now rewrite H. Qed.

(** On an output without limit one [fwrite] takes everything. *)
Lemma fwrite_unlimited (buf pre : list byte) (c : nat) :
  fwrite buf (length buf) (mkSINK pre None c) =
  (length buf, mkSINK (pre ++ buf) None (S c)).
Proof. unfold fwrite. simpl. now rewrite !firstn_all. Qed.

(** ** The chunk arrays *)

(** After [fread] into a fresh array and the [memset] that pads it up to
    [max_len], every cell below [max_len] holds the byte read there, or
    zero past the bytes read. *)
Lemma padded_chunk (got : list byte) (max_len i : nat) :
  length got <= max_len -> i < max_len ->
  (if length got <? max_len
   then memset (store uninitialised 0 got) (length got) x00
               (max_len - length got)
   else store uninitialised 0 got) i = Some (nth i got x00).
Proof.
  intros Hle Hi.
  assert (Hstore : i < length got ->
                   store uninitialised 0 got i = Some (nth i got x00)).
  { intros Hlt. unfold store. simpl.
    assert (E : (i <? length got) = true) by now apply Nat.ltb_lt.
    rewrite E, Nat.sub_0_r. now apply nth_error_nth'. }
  destruct (length got <? max_len) eqn:Hshort.
  - unfold memset.
    destruct (Nat.lt_ge_cases i (length got)) as [Hlt|Hge].
    + assert (E : (length got <=? i) = false) by (apply Nat.leb_gt; lia).
      rewrite E. simpl. now apply Hstore.
    + assert (E1 : (length got <=? i) = true) by now apply Nat.leb_le.
      assert (E2 : (i <? length got + (max_len - length got)) = true)
        by (apply Nat.ltb_lt; lia).
      rewrite E1, E2. simpl. now rewrite nth_overflow.
  - apply Nat.ltb_ge in Hshort. apply Hstore. lia.
Qed.

Lemma xor_chunks_defined (chunk1 chunk2 : buffer) (f1 f2 : nat -> byte)
    (n i : nat) :
  (forall k, i <= k < i + n ->
             chunk1 k = Some (f1 k) /\ chunk2 k = Some (f2 k)) ->
  xor_chunks chunk1 chunk2 i n =
  Some (map (fun k => byte_xor (f1 k) (f2 k)) (seq i n)).
Proof.
  revert i. induction n as [|n IH]; intros i H; simpl.
  - reflexivity.
  - destruct (H i ltac:(lia)) as [-> ->].
    rewrite IH by (intros k Hk; apply H; lia).
    reflexivity.
Qed.

(** ** One iteration *)

Lemma iteration_spec (N : nat) (l : locals) :
  let got1 := firstn N (pending (stream1 l)) in
  let got2 := firstn N (pending (stream2 l)) in
  let s1 := after_fread N (stream1 l) in
  let s2 := after_fread N (stream2 l) in
  iteration N l =
  if (length got1 =? 0) && (length got2 =? 0)
  then Break (mkLocals s1 s2 (all_data l) (total_size l) (bytes_processed l))
  else Continue (mkLocals s1 s2
                   (all_data l ++ naive_xor got1 got2)
                   (total_size l + Nat.max (length got1) (length got2))
                   (bytes_processed l + Nat.max (length got1) (length got2))).
Proof.
  intros got1 got2 s1 s2. unfold iteration, fread. fold got1 got2.
  destruct ((length got1 =? 0) && (length got2 =? 0)); [reflexivity|].
  set (max_len := if length got2 <? length got1
                  then length got1 else length got2).
  assert (Hmax : max_len = Nat.max (length got1) (length got2)).
  { unfold max_len. destruct (length got2 <? length got1) eqn:E.
    - apply Nat.ltb_lt in E. lia.
    - apply Nat.ltb_ge in E. lia. }
  rewrite (xor_chunks_defined _ _
             (fun k => nth k got1 x00) (fun k => nth k got2 x00)).
  - rewrite Hmax. reflexivity.
  - intros k Hk. split; apply padded_chunk; lia.
Qed.

(** ** The read loop, for a block size that is not zero *)

Section Engine.

Variable N : nat.
Hypothesis N_pos : 0 < N.

Lemma read_loop_step (g : globals) (l : locals) :
  read_loop N g l =
  match loop_step N g l with
  | Break l' => Some l'
  | Continue l' => read_loop N g l'
  | Undefined => None
  end.
Proof.
  rewrite read_loop_equation_1. unfold inspect. simpl.
  destruct (loop_step N g l); reflexivity.
Qed.

Lemma pending_after_fread (f : FILE) :
  pending (after_fread N f) = skipn N (pending f).
Proof. reflexivity. Qed.

Lemma drained_after_fread (f : FILE) :
  drained (after_fread N f) = drained f.
Proof.
  unfold drained, after_fread, fread. simpl.
  destruct (eof_ind f), (err_ind f), (broken f),
    (length (firstn N (pending f)) <? N); reflexivity.
Qed.

Lemma after_fread_exhausted (f : FILE) :
  length (firstn N (pending f)) = 0 -> after_fread N f = drained f.
Proof.
  intros H0. unfold drained, after_fread, fread. simpl.
  rewrite H0.
  assert (E : (0 <? N) = true) by now apply Nat.ltb_lt.
  rewrite E. simpl.
  rewrite length_firstn in H0.
  destruct (pending f) as [|b p]; [|simpl in H0; lia].
  now rewrite skipn_nil.
Qed.

(** The loop runs to its end and leaves in [all_data] the exclusive-or of
    everything the two streams had to deliver, whatever the block size. *)
Lemma read_loop_spec (g : globals) :
  interrupted g = false ->
  forall l : locals,
    let m := Nat.max (length (pending (stream1 l)))
                     (length (pending (stream2 l))) in
    read_loop N g l =
    Some (mkLocals (drained (stream1 l)) (drained (stream2 l))
            (all_data l ++ naive_xor (pending (stream1 l)) (pending (stream2 l)))
            (total_size l + m) (bytes_processed l + m)).
Proof.
  intros Hint l.
  remember (remaining l) as n eqn:Hn. revert l Hn.
  induction n as [n IH] using lt_wf_ind. intros l Hn m.
  rewrite read_loop_step. unfold loop_step. rewrite Hint.
  rewrite iteration_spec.
  destruct ((length (firstn N (pending (stream1 l))) =? 0)
            && (length (firstn N (pending (stream2 l))) =? 0)) eqn:Hz.
  - apply andb_true_iff in Hz. destruct Hz as [H1 H2].
    apply Nat.eqb_eq in H1, H2.
    rewrite !after_fread_exhausted by assumption.
    rewrite length_firstn in H1, H2.
    assert (P1 : pending (stream1 l) = [])
      by (destruct (pending (stream1 l)); [reflexivity | simpl in H1; lia]).
    assert (P2 : pending (stream2 l) = [])
      by (destruct (pending (stream2 l)); [reflexivity | simpl in H2; lia]).
    subst m. rewrite P1, P2. simpl.
    now rewrite app_nil_r, !Nat.add_0_r.
  - apply andb_false_iff in Hz.
    rewrite !length_firstn in Hz.
    rewrite (IH (remaining
                   (mkLocals (after_fread N (stream1 l))
                      (after_fread N (stream2 l))
                      (all_data l ++
                       naive_xor (firstn N (pending (stream1 l)))
                                 (firstn N (pending (stream2 l))))
                      (total_size l +
                       Nat.max (length (firstn N (pending (stream1 l))))
                               (length (firstn N (pending (stream2 l)))))
                      (bytes_processed l +
                       Nat.max (length (firstn N (pending (stream1 l))))
                               (length (firstn N (pending (stream2 l)))))))
               ) with (l := mkLocals _ _ _ _ _); [| | reflexivity].
    + cbn [stream1 stream2 all_data total_size bytes_processed].
      rewrite !drained_after_fread, !pending_after_fread.
      rewrite <- app_assoc, <- naive_xor_blocks.
      subst m. rewrite !length_firstn, !length_skipn.
      f_equal. f_equal; lia.
    + subst n. unfold remaining.
      cbn [stream1 stream2]. rewrite !pending_after_fread, !length_skipn.
      destruct Hz as [Hz|Hz]; apply Nat.eqb_neq in Hz; lia.
Qed.

(** The whole of [xor_files]. *)

Lemma xor_files_with_spec (g : globals) (f1 f2 : FILE) (out : SINK) :
  interrupted g = false ->
  let buf := final_output (preserve_zeros g)
               (naive_xor (pending f1) (pending f2)) in
  xor_files_with N g f1 f2 out =
  match buf with
  | [] => Returned out (drained f1) (drained f2)
  | _ :: _ =>
      let '(written, out') := fwrite buf (length buf) out in
      if negb (written =? length buf)
      then Died "write error" EXIT_ERROR out'
      else Returned out' (drained f1) (drained f2)
  end.
Proof.
  intros Hint buf. unfold xor_files_with.
  rewrite read_loop_spec by assumption.
  cbn [stream1 stream2 all_data total_size bytes_processed pending app].
  set (data := naive_xor (pending f1) (pending f2)) in *.
  replace (Nat.max (length (pending f1)) (length (pending f2)))
    with (length data) by apply length_naive_xor.
  rewrite !Nat.add_0_l.
  assert (Hsize :
    (if negb (preserve_zeros g) && (0 <? length data)
     then strip data (length data) else Some (length data))
    = Some (length buf)).
  { subst buf. unfold final_output.
    destruct (preserve_zeros g); simpl; [reflexivity|].
    destruct (0 <? length data) eqn:E.
    - apply strip_spec.
    - apply Nat.ltb_ge in E. destruct data; [reflexivity | simpl in E; lia]. }
  rewrite Hsize.
  assert (Hbuf : firstn (length buf) data = firstn (length buf) buf).
  { subst buf. unfold final_output.
    destruct (preserve_zeros g); [reflexivity|].
    now rewrite firstn_trim, firstn_all. }
  rewrite (fwrite_firstn data buf (length buf) (length buf) out Hbuf).
  destruct buf as [|b buf']; reflexivity.
Qed.

Lemma xor_with_spec (preserve : bool) (A B : list byte) :
  xor_with N preserve A B = Some (final_output preserve (naive_xor A B)).
Proof.
  unfold xor_with.
  rewrite xor_files_with_spec by reflexivity.
  cbn [startup preserve_zeros open_input_stream pending].
  destruct (final_output preserve (naive_xor A B)) as [|b buf] eqn:E;
    [reflexivity|].
  unfold fresh_stdout. rewrite fwrite_unlimited.
  now rewrite Nat.eqb_refl.
Qed.

End Engine.

(** ** The program, with its block size of 64KB *)

Lemma CHUNK_SIZE_pos : 0 < CHUNK_SIZE.
Proof. unfold CHUNK_SIZE. lia. Qed.

Lemma xor_spec (preserve : bool) (A B : list byte) :
  xor preserve A B = Some (final_output preserve (naive_xor A B)).
Proof. apply xor_with_spec, CHUNK_SIZE_pos. Qed.

Lemma pad_to_max (A B : list byte) :
  pad_to (Nat.max (length A) (length B)) A = pad_to (length B) A.
Proof. unfold pad_to. f_equal. f_equal. lia. Qed.

Lemma pad_to_exact (n : nat) (l : list byte) :
  pad_to n l = l <-> n <= length l.
Proof.
  split.
  - intros H. apply (f_equal (@length byte)) in H.
    rewrite length_pad_to in H. lia.
  - apply pad_to_short.
Qed.

(** ** The properties of the specification *)

(** C1. Before trimming, the output of [xor_files] on two byte sequences
    has the length of the longer one, and its byte at every position is
    the exclusive-or of the bytes of the two sources there, a source that
    has ended contributing [0x00]. *)
Theorem untrimmed_output_is_padded_xor (preserve : bool) (A B : list byte) :
  exists l : locals,
    read_loop CHUNK_SIZE (startup preserve)
      (mkLocals (open_input_stream A) (open_input_stream B) [] 0 0) = Some l
    /\ total_size l = Nat.max (length A) (length B)
    /\ length (all_data l) = Nat.max (length A) (length B)
    /\ forall i, i < Nat.max (length A) (length B) ->
         nth_error (all_data l) i
         = Some (byte_xor (nth i A x00) (nth i B x00)).
Proof.
  eexists. split.
  - apply read_loop_spec; [apply CHUNK_SIZE_pos | reflexivity].
  - cbn [stream1 stream2 all_data total_size open_input_stream pending app].
    repeat split.
    + apply length_naive_xor.
    + intros i Hi.
      rewrite (nth_error_nth' _ x00) by now rewrite length_naive_xor.
      now rewrite nth_naive_xor.
Qed.

Lemma untrimmed_output_at_AB_A :
  exists l : locals,
    read_loop CHUNK_SIZE (startup false)
      (mkLocals (open_input_stream [x41; x42]) (open_input_stream [x41])
         [] 0 0) = Some l
    /\ total_size l = 2
    /\ length (all_data l) = 2
    /\ forall i, i < 2 ->
         nth_error (all_data l) i
         = Some (byte_xor (nth i [x41; x42] x00) (nth i [x41] x00)).
Proof. exact (untrimmed_output_is_padded_xor false [x41; x42] [x41]). Defined.

(** C2, as the specification states it, fails when the sequence to
    recover is the shorter one: with [A] empty and [B] the single byte
    0x41, XORing the result with [B] again gives one zero byte, not [A]. *)
Lemma self_inverse_counterexample :
  exists R, xor true [] [x41] = Some R /\ xor true R [x41] <> Some [].
Proof.
  exists [x41]. split.
  - vm_compute. reflexivity.
  - vm_compute. discriminate.
Qed.

(** C2, amended. With [R] the untrimmed exclusive-or of [A] and [B],
    XORing [R] with [B] gives [A] followed by zero bytes up to the length
    of [B], and XORing [R] with [A] gives [B] followed by zero bytes up to
    the length of [A]; the recovery is exact precisely for a sequence
    that is not the shorter one. *)
Theorem self_inverse_up_to_padding (A B : list byte) :
  exists R,
    xor true A B = Some R
    /\ xor true R B = Some (pad_to (length B) A)
    /\ xor true R A = Some (pad_to (length A) B)
    /\ (xor true R B = Some A <-> length B <= length A)
    /\ (xor true R A = Some B <-> length A <= length B).
Proof.
  exists (naive_xor A B).
  assert (HB : xor true (naive_xor A B) B = Some (pad_to (length B) A)).
  { rewrite xor_spec. cbn [final_output].
    now rewrite naive_xor_cancel_r, pad_to_max. }
  assert (HA : xor true (naive_xor A B) A = Some (pad_to (length A) B)).
  { rewrite xor_spec. cbn [final_output].
    rewrite naive_xor_cancel_l, Nat.max_comm. now rewrite pad_to_max. }
  repeat split; try assumption.
  - apply xor_spec.
  - rewrite HB. intros H. injection H as H. now apply pad_to_exact.
  - rewrite HB. intros H. f_equal. now apply pad_to_exact.
  - rewrite HA. intros H. injection H as H. now apply pad_to_exact.
  - rewrite HA. intros H. f_equal. now apply pad_to_exact.
Qed.

Lemma self_inverse_up_to_padding_at_A_AB :
  exists R,
    xor true [x41] [x41; x42] = Some R
    /\ xor true R [x41; x42] = Some (pad_to 2 [x41])
    /\ xor true R [x41] = Some (pad_to 1 [x41; x42])
    /\ (xor true R [x41; x42] = Some [x41] <-> 2 <= 1)
    /\ (xor true R [x41] = Some [x41; x42] <-> 1 <= 2).
Proof. exact (self_inverse_up_to_padding [x41] [x41; x42]). Defined.

(** C3. Without [-z] the output is the output with [-z] minus its
    trailing run of zero bytes: the two differ by a suffix of zeros only,
    what is left does not end in a zero, and an all-zero result is
    trimmed to nothing. *)
Theorem trim_correct (A B : list byte) :
  exists R,
    xor true A B = Some R
    /\ xor false A B = Some (trim R)
    /\ (exists k, R = trim R ++ repeat x00 k)
    /\ (trim R = [] \/ last (trim R) x00 <> x00)
    /\ ((forall b, In b R -> b = x00) -> xor false A B = Some []).
Proof.
  exists (naive_xor A B). rewrite !xor_spec. cbn [final_output].
  repeat split.
  - apply trim_suffix.
  - apply trim_last.
  - intros H. f_equal. now apply trim_all_zero.
Qed.

Lemma trim_correct_at_equal_inputs :
  exists R,
    xor true [x41; x42] [x41; x42] = Some R
    /\ xor false [x41; x42] [x41; x42] = Some (trim R)
    /\ (exists k, R = trim R ++ repeat x00 k)
    /\ (trim R = [] \/ last (trim R) x00 <> x00)
    /\ ((forall b, In b R -> b = x00) ->
        xor false [x41; x42] [x41; x42] = Some []).
Proof. exact (trim_correct [x41; x42] [x41; x42]). Defined.

(** C4. A read error is not told apart from end-of-file: [xor_files]
    never consults the error indicator that [fread] sets. When the first
    stream fails after delivering the byte 0x41 and the second holds
    0x42 0x43, the run returns normally, the process exits with
    [EXIT_SUCCESS], and the bytes XORed so far are on [stdout]. *)
Theorem read_error_exits_with_success :
  xor_files (startup false)
    (failing_input_stream [x41]) (open_input_stream [x42; x43]) fresh_stdout
  = Returned (mkSINK [x03; x43] None 1)
      (mkFILE [] true false true) (mkFILE [] false true false)
  /\ exit_status
       (xor_files (startup false)
          (failing_input_stream [x41]) (open_input_stream [x42; x43])
          fresh_stdout)
     = Some EXIT_SUCCESS.
Proof. split; vm_compute; reflexivity. Qed.

(** The same for every content and both settings of the flag: a failing
    first stream leaves its error indicator set, and the run still
    returns with the output of a run on healthy streams. *)
Lemma read_error_is_silent (preserve : bool) (A B : list byte) :
  exists out s1 s2,
    xor_files (startup preserve)
      (failing_input_stream A) (open_input_stream B) fresh_stdout
    = Returned out s1 s2
    /\ err_ind s1 = true
    /\ Some (sunk out) = xor preserve A B.
Proof.
  unfold xor_files.
  rewrite xor_files_with_spec by (apply CHUNK_SIZE_pos || reflexivity).
  rewrite xor_spec.
  cbn [startup preserve_zeros failing_input_stream open_input_stream pending].
  destruct (final_output preserve (naive_xor A B)) as [|b buf];
    [do 3 eexists; repeat split|].
  unfold fresh_stdout. rewrite fwrite_unlimited, Nat.eqb_refl.
  do 3 eexists. repeat split.
Qed.

(** C5. The read loop, as [main] starts it, ends exactly in a trip in
    which both [fread] calls return zero: from any state, if both counts
    are zero the loop is left there and then, with the data assembled so
    far; if they are not both zero (one of them zero and the other not,
    or both not zero) the body runs to its end, appends as many bytes as
    the larger count, and the loop goes on from the state so reached,
    whose result is the result of the loop. With a block size that is not
    zero the loop does end, and it ends on streams from which both
    [fread] calls return zero, after appending as many bytes as the
    longer stream had to deliver. *)
Theorem loop_exit_condition (N : nat) (preserve : bool) (l : locals) :
  let g := startup preserve in
  let read1 := fst (fst (fread uninitialised N (stream1 l))) in
  let read2 := fst (fst (fread uninitialised N (stream2 l))) in
  let left_here :=
    mkLocals (after_fread N (stream1 l)) (after_fread N (stream2 l))
      (all_data l) (total_size l) (bytes_processed l) in
  (read1 = 0 /\ read2 = 0 ->
   loop_step N g l = Break left_here /\ read_loop N g l = Some left_here)
  /\ (~ (read1 = 0 /\ read2 = 0) ->
      exists result_chunk,
        let l' :=
          mkLocals (after_fread N (stream1 l)) (after_fread N (stream2 l))
            (all_data l ++ result_chunk)
            (total_size l + Nat.max read1 read2)
            (bytes_processed l + Nat.max read1 read2) in
        length result_chunk = Nat.max read1 read2
        /\ 0 < length result_chunk
        /\ loop_step N g l = Continue l'
        /\ read_loop N g l = read_loop N g l'
        /\ read_loop N g l <> Some left_here)
  /\ (0 < N ->
      exists l_end,
        read_loop N g l = Some l_end
        /\ fst (fst (fread uninitialised N (stream1 l_end))) = 0
        /\ fst (fst (fread uninitialised N (stream2 l_end))) = 0
        /\ total_size l_end
           = total_size l
             + Nat.max (length (pending (stream1 l)))
                       (length (pending (stream2 l)))
        /\ length (all_data l_end)
           = length (all_data l)
             + Nat.max (length (pending (stream1 l)))
                       (length (pending (stream2 l)))).
Proof.
  intros g read1 read2 left_here.
  assert (Hstep :
    loop_step N g l =
    if (read1 =? 0) && (read2 =? 0) then Break left_here
    else Continue
           (mkLocals (after_fread N (stream1 l)) (after_fread N (stream2 l))
              (all_data l ++ naive_xor (firstn N (pending (stream1 l)))
                                       (firstn N (pending (stream2 l))))
              (total_size l + Nat.max read1 read2)
              (bytes_processed l + Nat.max read1 read2))).
  { unfold loop_step. cbn [g startup interrupted]. apply iteration_spec. }
  split; [|split].
  - intros [E1 E2]. rewrite read_loop_step, Hstep, E1, E2. now split.
  - intros Hnot.
    assert (Hz : (read1 =? 0) && (read2 =? 0) = false).
    { apply andb_false_iff.
      destruct (Nat.eqb_spec read1 0) as [E1|E1]; [|now left].
      destruct (Nat.eqb_spec read2 0) as [E2|E2]; [|now right].
      exfalso. now apply Hnot. }
    rewrite Hz in Hstep.
    assert (Hpos : 0 < Nat.max read1 read2).
    { apply andb_false_iff in Hz.
      destruct Hz as [Hz|Hz]; apply Nat.eqb_neq in Hz; lia. }
    exists (naive_xor (firstn N (pending (stream1 l)))
                      (firstn N (pending (stream2 l)))).
    assert (Hlen : length (naive_xor (firstn N (pending (stream1 l)))
                             (firstn N (pending (stream2 l))))
                   = Nat.max read1 read2) by apply length_naive_xor.
    cbv zeta. rewrite Hlen.
    assert (Hgo : read_loop N g l =
                  read_loop N g
                    (mkLocals (after_fread N (stream1 l))
                       (after_fread N (stream2 l))
                       (all_data l ++
                        naive_xor (firstn N (pending (stream1 l)))
                                  (firstn N (pending (stream2 l))))
                       (total_size l + Nat.max read1 read2)
                       (bytes_processed l + Nat.max read1 read2)))
      by now rewrite read_loop_step, Hstep.
    repeat split; try assumption.
    intros Hleft.
    (* the loop can only end with at least the bytes of this trip *)
    destruct (Nat.eq_dec N 0) as [HN|HN].
    + subst N. unfold read1, read2 in Hpos. simpl in Hpos. lia.
    + rewrite Hgo, read_loop_spec in Hleft by (lia || reflexivity).
      injection Hleft as _ _ _ Htotal _.
      cbn [total_size] in Htotal. lia.
  - intros HN. eexists. split.
    + apply read_loop_spec; [assumption | reflexivity].
    + cbn [stream1 stream2 all_data total_size drained pending fread fst
           firstn length].
      repeat split.
      * destruct N; reflexivity.
      * destruct N; reflexivity.
      * now rewrite length_app, length_naive_xor.
Qed.

Lemma loop_goes_on_when_one_side_is_exhausted :
  ~ (fst (fst (fread uninitialised CHUNK_SIZE (open_input_stream []))) = 0
     /\ fst (fst (fread uninitialised CHUNK_SIZE (open_input_stream [x41])))
        = 0)
  /\ exists result_chunk,
       length result_chunk = 1
       /\ loop_step CHUNK_SIZE (startup false)
            (mkLocals (open_input_stream []) (open_input_stream [x41]) [] 0 0)
          = Continue
              (mkLocals (after_fread CHUNK_SIZE (open_input_stream []))
                 (after_fread CHUNK_SIZE (open_input_stream [x41]))
                 ([] ++ result_chunk) 1 1)
       /\ read_loop CHUNK_SIZE (startup false)
            (mkLocals (open_input_stream []) (open_input_stream [x41]) [] 0 0)
          = read_loop CHUNK_SIZE (startup false)
              (mkLocals (after_fread CHUNK_SIZE (open_input_stream []))
                 (after_fread CHUNK_SIZE (open_input_stream [x41]))
                 ([] ++ result_chunk) 1 1).
Proof.
  assert (Hnot :
    ~ (fst (fst (fread uninitialised CHUNK_SIZE (open_input_stream []))) = 0
       /\ fst (fst (fread uninitialised CHUNK_SIZE (open_input_stream [x41])))
          = 0))
    by (vm_compute; intros [_ H]; discriminate H).
  split; [exact Hnot|].
  destruct (loop_exit_condition CHUNK_SIZE false
              (mkLocals (open_input_stream []) (open_input_stream [x41])
                 [] 0 0)) as [_ [Hgo _]].
  destruct (Hgo Hnot) as [chunk [Hlen [_ [Hstep [Hloop _]]]]].
  exists chunk. split; [exact Hlen|]. split; [exact Hstep | exact Hloop].
Defined.

(** C6. When [A] is shorter than [B], the untrimmed output has the
    length of [B] and, from the end of [A] on, carries the bytes of [B]
    unchanged. *)
Theorem padding_correct (A B : list byte) :
  length A < length B ->
  exists R,
    xor true A B = Some R
    /\ length R = length B
    /\ forall i, length A <= i < length B -> nth_error R i = nth_error B i.
Proof.
  intros Hlen. exists (naive_xor A B). rewrite xor_spec. cbn [final_output].
  split; [reflexivity|]. split.
  - rewrite length_naive_xor. lia.
  - intros i Hi.
    rewrite (nth_error_nth' _ x00) by (rewrite length_naive_xor; lia).
    rewrite (nth_error_nth' B x00) by lia.
    rewrite nth_naive_xor, (nth_overflow A) by lia.
    now rewrite byte_xor_x00_l.
Qed.

Lemma padding_correct_at_A_ABC :
  length [x41] < length [x41; x42; x43]
  /\ exists R,
       xor true [x41] [x41; x42; x43] = Some R
       /\ length R = length [x41; x42; x43]
       /\ forall i, length [x41] <= i < length [x41; x42; x43] ->
                    nth_error R i = nth_error [x41; x42; x43] i.
Proof.
  split; [simpl; lia|].
  apply (padding_correct [x41] [x41; x42; x43]). simpl; lia.
Defined.

(** C7. Two empty sources give an empty output whatever the flag. With
    one empty source the untrimmed output is the other source, byte for
    byte, and without [-z] that source loses its own trailing zero bytes:
    what is written is the source up to its last non-zero byte. *)
Theorem empty_sources (preserve : bool) (A : list byte) :
  xor preserve [] [] = Some []
  /\ xor true A [] = Some A
  /\ xor true [] A = Some A
  /\ xor false A [] = Some (trim A)
  /\ xor false [] A = Some (trim A)
  /\ (exists k, A = trim A ++ repeat x00 k)
  /\ (trim A = [] \/ last (trim A) x00 <> x00).
Proof.
  rewrite !xor_spec, !naive_xor_nil_r, !naive_xor_nil_l.
  cbn [final_output].
  repeat split.
  - now destruct preserve.
  - apply trim_suffix.
  - apply trim_last.
Qed.

Lemma empty_sources_at_A_zero :
  xor false [] [] = Some []
  /\ xor true [x41; x00] [] = Some [x41; x00]
  /\ xor true [] [x41; x00] = Some [x41; x00]
  /\ xor false [x41; x00] [] = Some (trim [x41; x00])
  /\ xor false [] [x41; x00] = Some (trim [x41; x00])
  /\ (exists k, [x41; x00] = trim [x41; x00] ++ repeat x00 k)
  /\ (trim [x41; x00] = [] \/ last (trim [x41; x00]) x00 <> x00).
Proof. exact (empty_sources false [x41; x00]). Defined.

(** C8. The block size is a tuning constant: any two block sizes that
    are not zero give the same output, which is the byte-wise
    exclusive-or with zero padding computed without blocks (trimmed
    without [-z]). *)
Theorem block_size_irrelevant (N M : nat) (preserve : bool) (A B : list byte) :
  0 < N -> 0 < M ->
  xor_with N preserve A B = xor_with M preserve A B
  /\ xor_with N preserve A B = Some (final_output preserve (naive_xor A B)).
Proof.
  intros HN HM. rewrite !xor_with_spec by assumption. now split.
Qed.

Lemma block_size_irrelevant_at_1_and_CHUNK_SIZE :
  0 < 1 /\ 0 < CHUNK_SIZE
  /\ xor_with 1 false [x41; x42; x43] [x41]
     = xor_with CHUNK_SIZE false [x41; x42; x43] [x41]
  /\ xor_with 1 false [x41; x42; x43] [x41]
     = Some (final_output false (naive_xor [x41; x42; x43] [x41])).
Proof.
  split; [lia|]. split; [unfold CHUNK_SIZE; lia|].
  apply (block_size_irrelevant 1 CHUNK_SIZE false [x41; x42; x43] [x41]).
  - lia.
  - unfold CHUNK_SIZE; lia.
Defined.

(** C9. Without [-z], what [xor_files] adds to [stdout] is empty or ends
    in a non-zero byte; when it is empty [fwrite] is not called at all
    and [stdout] is left as it was, otherwise it is written by a single
    [fwrite]. *)
Theorem stripped_output_ends_in_nonzero (A B pre : list byte) (c : nat) :
  exists T s1 s2,
    xor_files (startup false) (open_input_stream A) (open_input_stream B)
      (mkSINK pre None c)
    = Returned (mkSINK (pre ++ T) None (match T with [] => c | _ => S c end))
        s1 s2
    /\ (T = [] \/ last T x00 <> x00).
Proof.
  exists (trim (naive_xor A B)). unfold xor_files.
  rewrite xor_files_with_spec by (apply CHUNK_SIZE_pos || reflexivity).
  cbn [startup preserve_zeros open_input_stream pending final_output].
  pose proof (trim_last (naive_xor A B)) as Hlast.
  destruct (trim (naive_xor A B)) as [|b T].
  - do 2 eexists. rewrite app_nil_r. split; [reflexivity | now left].
  - rewrite fwrite_unlimited, Nat.eqb_refl.
    do 2 eexists. split; [reflexivity | assumption].
Qed.

Lemma stripped_output_at_equal_inputs :
  exists T s1 s2,
    xor_files (startup false)
      (open_input_stream [x41]) (open_input_stream [x41]) (mkSINK [] None 0)
    = Returned (mkSINK ([] ++ T) None (match T with [] => 0 | _ => 1 end))
        s1 s2
    /\ (T = [] \/ last T x00 <> x00).
Proof. exact (stripped_output_ends_in_nonzero [x41] [x41] [] 0). Defined.

(** C10. The two sources can be exchanged: with either setting of the
    flag the output is the same. *)
Theorem xor_commutative (flag : bool) (A B : list byte) :
  xor flag A B = xor flag B A.
Proof. rewrite !xor_spec. now rewrite naive_xor_comm. Qed.

(** ** The examples of the specification *)

Example single_byte : xor true [x41] [x42] = Some [x03].
Proof. vm_compute. reflexivity. Qed.

Example empty_empty : xor false [] [] = Some [].
Proof. vm_compute. reflexivity. Qed.

Example asymmetric_lengths :
  xor true [x41; x42] [x41] = Some [x00; x42]
  /\ xor false [x41; x42] [x41] = Some [x00; x42].
Proof. split; vm_compute; reflexivity. Qed.

Example interior_zeros_are_kept :
  xor false [x41; x42; x00; x43; x44] [x41; x01; x00; x02; x44]
  = Some [x00; x43; x00; x41].
Proof. vm_compute. reflexivity. Qed.

(** * Further properties of the engine *)

(** ** More on trailing zeros *)

Lemma trim_app_zeros (l : list byte) (k : nat) :
  trim (l ++ repeat x00 k) = trim l.
Proof.
  induction k as [|k IH].
  - simpl. now rewrite app_nil_r.
  - replace (repeat x00 (S k)) with (repeat x00 k ++ [x00])
      by (change [x00] with (repeat x00 1); rewrite <- repeat_app;
          f_equal; lia).
    rewrite app_assoc, trim_snoc. exact IH.
Qed.

Lemma nth_app_zeros (l : list byte) (k i : nat) :
  nth i (l ++ repeat x00 k) x00 = nth i l x00.
Proof.
  destruct (Nat.lt_ge_cases i (length l)) as [Hi|Hi].
  - now rewrite app_nth1.
  - rewrite app_nth2, nth_repeat by assumption. now rewrite nth_overflow.
Qed.

(** Read with zeros past its end, a sequence and its trimmed form are
    the same. *)
Lemma nth_trim (l : list byte) (i : nat) : nth i (trim l) x00 = nth i l x00.
Proof.
  destruct (trim_suffix l) as [k Hk].
  rewrite Hk at 2. now rewrite nth_app_zeros.
Qed.

(** Two sequences that agree once read with zeros past their ends differ
    by trailing zeros only. *)
Lemma trim_ext (l l' : list byte) :
  (forall i, nth i l x00 = nth i l' x00) -> trim l = trim l'.
Proof.
  assert (Hle : forall a b : list byte,
             length a <= length b ->
             (forall i, nth i a x00 = nth i b x00) -> trim a = trim b).
  { intros a b Hlen H.
    assert (E : b = a ++ repeat x00 (length b - length a)).
    { apply bytes_ext.
      - rewrite length_app, repeat_length. lia.
      - intros i _. now rewrite nth_app_zeros. }
    rewrite E. now rewrite trim_app_zeros. }
  intros H.
  destruct (Nat.le_ge_cases (length l) (length l')) as [Hlen|Hlen].
  - now apply Hle.
  - symmetry. apply Hle; [assumption | intros i; symmetry; apply H].
Qed.

(** A sequence that does not end in a zero is left alone, and only such
    a sequence is. *)
Lemma trim_fixed (l : list byte) :
  trim l = l <-> (l = [] \/ last l x00 <> x00).
Proof.
  split.
  - intros H. rewrite <- H. apply trim_last.
  - intros [->|H]; [reflexivity|].
    destruct l as [|b l] using rev_ind; [reflexivity|].
    rewrite last_last in H. rewrite trim_snoc.
    apply is_zero_false in H. now rewrite H.
Qed.

Lemma naive_xor_assoc (A B C : list byte) :
  naive_xor (naive_xor A B) C = naive_xor A (naive_xor B C).
Proof.
  apply bytes_ext.
  - rewrite !length_naive_xor. lia.
  - intros i _. rewrite !nth_naive_xor.
    apply to_N_inj. rewrite !to_N_byte_xor. apply N.lxor_assoc.
Qed.

Lemma final_output_ext (preserve : bool) (l l' : list byte) :
  length l = length l' ->
  (forall i, nth i l x00 = nth i l' x00) ->
  final_output preserve l = final_output preserve l'.
Proof.
  intros Hlen H. destruct preserve; simpl.
  - apply bytes_ext; [assumption | intros i _; apply H].
  - now apply trim_ext.
Qed.

(** ** Composing runs *)

(** X1. In the default mode, XORing the output with one input again gives
    the other input without its trailing zero bytes: the round trip is
    exact for an input that does not end in a zero byte, and only then. *)
Theorem default_round_trip (A B : list byte) :
  exists R,
    xor false A B = Some R
    /\ xor false R B = Some (trim A)
    /\ xor false R A = Some (trim B)
    /\ (xor false R B = Some A <-> (A = [] \/ last A x00 <> x00))
    /\ (xor false R A = Some B <-> (B = [] \/ last B x00 <> x00)).
Proof.
  exists (trim (naive_xor A B)).
  assert (HB : xor false (trim (naive_xor A B)) B = Some (trim A)).
  { rewrite xor_spec. cbn [final_output]. f_equal. apply trim_ext.
    intros i. rewrite nth_naive_xor, nth_trim, nth_naive_xor.
    apply byte_xor_cancel_r. }
  assert (HA : xor false (trim (naive_xor A B)) A = Some (trim B)).
  { rewrite xor_spec. cbn [final_output]. f_equal. apply trim_ext.
    intros i. rewrite nth_naive_xor, nth_trim, nth_naive_xor.
    apply byte_xor_cancel_l. }
  repeat split; try assumption.
  - apply xor_spec.
  - rewrite HB. intros H. injection H as H. now apply trim_fixed.
  - rewrite HB. intros H. f_equal. now apply trim_fixed.
  - rewrite HA. intros H. injection H as H. now apply trim_fixed.
  - rewrite HA. intros H. f_equal. now apply trim_fixed.
Qed.

(** X2. Three inputs can be combined in either grouping, with or without
    [-z]: XORing the output for [A] and [B] with [C] gives what XORing [A]
    with the output for [B] and [C] gives. *)
Theorem xor_associative (flag : bool) (A B C : list byte) :
  exists AB BC,
    xor flag A B = Some AB
    /\ xor flag B C = Some BC
    /\ xor flag AB C = xor flag A BC.
Proof.
  exists (final_output flag (naive_xor A B)),
         (final_output flag (naive_xor B C)).
  rewrite !xor_spec. repeat split. f_equal.
  destruct flag; cbn [final_output].
  - apply naive_xor_assoc.
  - apply trim_ext. intros i.
    rewrite !nth_naive_xor, !nth_trim, !nth_naive_xor.
    apply to_N_inj. rewrite !to_N_byte_xor. apply N.lxor_assoc.
Qed.

(** X3. Two inputs with the same content cancel: with [-z] the output is one
    zero byte per input byte, and by default nothing is written. *)
Theorem identical_contents_cancel (A : list byte) :
  xor true A A = Some (repeat x00 (length A))
  /\ xor false A A = Some [].
Proof.
  assert (E : naive_xor A A = repeat x00 (length A)).
  { apply bytes_ext.
    - rewrite length_naive_xor, repeat_length. lia.
    - intros i _. rewrite nth_naive_xor, nth_repeat. apply byte_xor_self. }
  rewrite !xor_spec, E. cbn [final_output]. split; [reflexivity|].
  f_equal. apply (trim_app_zeros [] (length A)).
Qed.

(** X4. A default output is stable: XORing it with an empty input, in either
    mode, gives it back unchanged, so stripping twice is stripping once. *)
Theorem stripped_output_is_stable (A B : list byte) :
  exists T,
    xor false A B = Some T
    /\ xor false T [] = Some T
    /\ xor true T [] = Some T.
Proof.
  exists (trim (naive_xor A B)).
  rewrite !xor_spec, naive_xor_nil_r. cbn [final_output].
  now rewrite trim_idempotent.
Qed.

(** ** The output stream *)

(** X5. When [fwrite] comes back with a short count, reporting [r] bytes
    written where the output holds more, the run dies with "write error"
    and [EXIT_ERROR]; the [r] bytes reported stay with the stream. *)
Theorem write_error_dies (preserve : bool) (A B T pre : list byte) (r c : nat) :
  xor preserve A B = Some T ->
  r < length T ->
  xor_files (startup preserve) (open_input_stream A) (open_input_stream B)
    (mkSINK pre (Some r) c)
  = Died "write error" EXIT_ERROR (mkSINK (pre ++ firstn r T) (Some 0) (S c)).
Proof.
  intros HT Hr. rewrite xor_spec in HT. injection HT as HT.
  unfold xor_files.
  rewrite xor_files_with_spec by (apply CHUNK_SIZE_pos || reflexivity).
  cbn [startup preserve_zeros open_input_stream pending]. rewrite HT.
  destruct T as [|b T']; [simpl in Hr; lia|].
  unfold fwrite. cbn [room sunk calls option_map].
  rewrite firstn_all. rewrite (Nat.min_l r) by lia.
  rewrite Nat.sub_diag.
  assert (E : (r =? length (b :: T')) = false) by (apply Nat.eqb_neq; lia).
  now rewrite E.
Qed.

Lemma write_error_on_short_count :
  xor true [x41; x42] [x01] = Some [x40; x42]
  /\ 1 < length [x40; x42]
  /\ xor_files (startup true)
       (open_input_stream [x41; x42]) (open_input_stream [x01])
       (mkSINK [] (Some 1) 0)
     = Died "write error" EXIT_ERROR
         (mkSINK ([] ++ firstn 1 [x40; x42]) (Some 0) 1).
Proof.
  assert (H : xor true [x41; x42] [x01] = Some [x40; x42])
    by (vm_compute; reflexivity).
  split; [exact H|]. split; [simpl; lia|].
  apply (write_error_dies true [x41; x42] [x01] [x40; x42] [] 1 0 H).
  simpl; lia.
Defined.

(** X6. When [stdout] has room for the whole output, the run returns with
    the output appended to it, and the room shrinks by that much; an
    empty output leaves [stdout] untouched. *)
Theorem enough_room_returns (preserve : bool) (A B T pre : list byte)
    (r c : nat) :
  xor preserve A B = Some T ->
  length T <= r ->
  exists s1 s2,
    xor_files (startup preserve) (open_input_stream A) (open_input_stream B)
      (mkSINK pre (Some r) c)
    = Returned (mkSINK (pre ++ T) (Some (r - length T))
                  (match T with [] => c | _ => S c end)) s1 s2.
Proof.
  intros HT Hr. rewrite xor_spec in HT. injection HT as HT.
  unfold xor_files.
  rewrite xor_files_with_spec by (apply CHUNK_SIZE_pos || reflexivity).
  cbn [startup preserve_zeros open_input_stream pending]. rewrite HT.
  destruct T as [|b T'].
  - do 2 eexists. simpl. now rewrite app_nil_r, Nat.sub_0_r.
  - unfold fwrite. cbn [room sunk calls option_map].
    rewrite firstn_all. rewrite (Nat.min_r r) by lia.
    rewrite firstn_all, Nat.eqb_refl. cbn [negb].
    do 2 eexists. reflexivity.
Qed.

Lemma enough_room_for_two_bytes :
  xor true [x41; x42] [x01] = Some [x40; x42]
  /\ length [x40; x42] <= 5
  /\ exists s1 s2,
       xor_files (startup true)
         (open_input_stream [x41; x42]) (open_input_stream [x01])
         (mkSINK [] (Some 5) 0)
       = Returned (mkSINK ([] ++ [x40; x42]) (Some (5 - length [x40; x42])) 1)
           s1 s2.
Proof.
  assert (H : xor true [x41; x42] [x01] = Some [x40; x42])
    by (vm_compute; reflexivity).
  split; [exact H|]. split; [simpl; lia|].
  apply (enough_room_returns true [x41; x42] [x01] [x40; x42] [] 5 0 H).
  simpl; lia.
Defined.

(** ** Any two streams *)

Lemma read_loop_interrupted (N : nat) (g : globals) (l : locals) :
  interrupted g = true -> read_loop N g l = Some l.
Proof.
  intros H. rewrite read_loop_step. unfold loop_step. now rewrite H.
Qed.

Lemma read_loop_block_0 (g : globals) (l : locals) :
  interrupted g = false ->
  read_loop 0 g l =
  Some (mkLocals (after_fread 0 (stream1 l)) (after_fread 0 (stream2 l))
          (all_data l) (total_size l) (bytes_processed l)).
Proof.
  intros H. rewrite read_loop_step. unfold loop_step. rewrite H.
  now rewrite iteration_spec.
Qed.

(** X7. Whatever the streams hold and however they end, with room without
    limit on [stdout] the run returns: both streams have been read to
    their end, the indicator of that end is set on each (and is not
    looked at), and what was written is the output for the bytes the
    streams delivered. *)
Theorem both_streams_read_to_the_end (preserve : bool) (f1 f2 : FILE)
    (pre : list byte) (c : nat) :
  exists T out s1 s2,
    xor preserve (pending f1) (pending f2) = Some T
    /\ xor_files (startup preserve) f1 f2 (mkSINK pre None c)
       = Returned out s1 s2
    /\ sunk out = pre ++ T
    /\ pending s1 = [] /\ pending s2 = []
    /\ eof_ind s1 = eof_ind f1 || negb (broken f1)
    /\ eof_ind s2 = eof_ind f2 || negb (broken f2)
    /\ err_ind s1 = err_ind f1 || broken f1
    /\ err_ind s2 = err_ind f2 || broken f2.
Proof.
  exists (final_output preserve (naive_xor (pending f1) (pending f2))).
  unfold xor_files.
  rewrite xor_files_with_spec by (apply CHUNK_SIZE_pos || reflexivity).
  rewrite xor_spec. cbn [startup preserve_zeros].
  destruct (final_output preserve (naive_xor (pending f1) (pending f2)))
    as [|b T].
  - do 3 eexists. split; [reflexivity|]. split; [reflexivity|].
    cbn [sunk drained pending eof_ind err_ind].
    rewrite app_nil_r. repeat split.
  - rewrite fwrite_unlimited, Nat.eqb_refl. cbn [negb].
    do 3 eexists. split; [reflexivity|]. split; [reflexivity|].
    cbn [sunk drained pending eof_ind err_ind]. repeat split.
Qed.

Lemma xor_files_with_status (N : nat) (g : globals) (f1 f2 : FILE)
    (out : SINK) :
  exit_status (xor_files_with N g f1 f2 out) = Some EXIT_SUCCESS
  \/ exit_status (xor_files_with N g f1 f2 out) = Some EXIT_ERROR.
Proof.
  destruct (interrupted g) eqn:Hint.
  - unfold xor_files_with. rewrite read_loop_interrupted by assumption.
    cbn [total_size all_data]. destruct (preserve_zeros g); now left.
  - destruct N as [|N].
    + unfold xor_files_with. rewrite read_loop_block_0 by assumption.
      cbn [total_size all_data]. destruct (preserve_zeros g); now left.
    + rewrite xor_files_with_spec by (lia || assumption).
      destruct (final_output (preserve_zeros g)
                  (naive_xor (pending f1) (pending f2))) as [|b T];
        [now left|].
      destruct (fwrite (b :: T) (length (b :: T)) out) as [written out'].
      destruct (negb (written =? length (b :: T))); [now right | now left].
Qed.

(** X8. The engine never reads an array cell that was not written: the
    XOR loop only reads cells of [chunk1] and [chunk2] that [fread] or the
    padding [memset] has filled, and the stripping loop only reads
    [all_data] below [total_size]. This holds for every block size, every
    setting of the globals, every pair of streams and every answer of
    [fwrite]. *)
Theorem engine_reads_only_written_cells (N : nat) (g : globals)
    (f1 f2 : FILE) (out : SINK) :
  xor_files_with N g f1 f2 out <> Stuck.
Proof.
  pose proof (xor_files_with_status N g f1 f2 out) as H.
  intros E. rewrite E in H. destruct H; discriminate.
Qed.


Lemma xor_files_unlimited (preserve : bool) (f1 f2 : FILE)
    (pre : list byte) (c : nat) :
  exists T,
    xor preserve (pending f1) (pending f2) = Some T
    /\ xor_files (mkGlobals false preserve) f1 f2 (mkSINK pre None c)
       = Returned (mkSINK (pre ++ T) None (match T with [] => c | _ => S c end))
           (drained f1) (drained f2).
Proof.
  exists (final_output preserve (naive_xor (pending f1) (pending f2))).
  split; [apply xor_spec|]. unfold xor_files.
  rewrite xor_files_with_spec by (apply CHUNK_SIZE_pos || reflexivity).
  cbn [preserve_zeros].
  destruct (final_output preserve (naive_xor (pending f1) (pending f2)))
    as [|b T].
  - now rewrite app_nil_r.
  - now rewrite fwrite_unlimited, Nat.eqb_refl.
Qed.

(** * The command line *)

Section CommandLine.

Import Cli.
Local Open Scope string_scope.

Variable os : OS.

(** ** Signals *)

(** X9. [setup_signal_handling] installs [signal_handler] only for
    signals the handler has a case of its own for: for each of them the
    handler dies with a message naming the signal and with exit code 128
    plus the signal number, so the default case, and the addition in it,
    is never reached through an installed signal. *)
Theorem installed_signals_exit_code (signum : Z) :
  In (signum, Handler) setup_signal_handling ->
  exists msg,
    signal_handler signum = Some (msg, (128 + signum)%Z)
    /\ msg <> "received signal".
Proof.
  unfold setup_signal_handling. simpl.
  intros [H|[H|[H|[H|[]]]]]; try discriminate H;
    injection H as <-;
    [exists "interrupted" | exists "terminated" | exists "hangup"];
    (split; [reflexivity | discriminate]).
Qed.

(** ** Options *)

(** The option loop runs to its end exactly on a sequence of [-p] and
    [-z]; the flags it leaves say whether each one occurred, whatever
    the order and the number of occurrences. *)
Lemma getopt_loop_flags (cs : list ascii) (fl : flags) :
  forallb is_flag cs = true ->
  getopt_loop cs fl =
  inr (mkFlags (show_progress fl || existsb (Ascii.eqb "p") cs)
               (preserve fl || existsb (Ascii.eqb "z") cs)).
Proof.
  revert fl. induction cs as [|c cs IH]; intros fl H; simpl.
  - rewrite !orb_false_r. now destruct fl.
  - simpl in H. apply andb_true_iff in H. destruct H as [Hc Hcs].
    unfold is_flag in Hc.
    destruct (Ascii.eqb_spec c "h") as [->|_]; [discriminate|].
    destruct (Ascii.eqb_spec c "p") as [->|_].
    + rewrite IH by assumption. simpl. now rewrite orb_true_r.
    + destruct (Ascii.eqb_spec c "z") as [->|_]; [|discriminate].
      rewrite IH by assumption. simpl. now rewrite orb_true_r.
Qed.

Lemma getopt_loop_stops (ps rest : list ascii) (c : ascii) (fl : flags) :
  forallb is_flag ps = true -> is_flag c = false ->
  getopt_loop (ps ++ c :: rest) fl =
  inl (if Ascii.eqb c "h" then Help
       else if Ascii.eqb c "V" then Version else Bad_option).
Proof.
  revert fl. induction ps as [|p ps IH]; intros fl Hps Hc.
  - simpl. unfold is_flag in Hc. apply orb_false_iff in Hc.
    destruct Hc as [Hp Hz]. rewrite Hp, Hz.
    destruct (Ascii.eqb c "h"); [reflexivity|].
    destruct (Ascii.eqb c "V"); reflexivity.
  - simpl in Hps. apply andb_true_iff in Hps. destruct Hps as [Hp Hps].
    unfold is_flag in Hp. simpl.
    destruct (Ascii.eqb_spec p "h") as [->|_]; [discriminate|].
    destruct (Ascii.eqb_spec p "p") as [->|_]; [now apply IH|].
    destruct (Ascii.eqb_spec p "z") as [->|_]; [now apply IH|discriminate].
Qed.

Lemma getopt_loop_done (cs : list ascii) (fl0 fl : flags) :
  getopt_loop cs fl0 = inr fl -> forallb is_flag cs = true.
Proof.
  revert fl0. induction cs as [|c cs IH]; intros fl0 H; [reflexivity|].
  simpl in H. simpl. unfold is_flag at 1.
  destruct (Ascii.eqb c "h"); [discriminate|].
  destruct (Ascii.eqb c "p"); [now apply IH in H|].
  destruct (Ascii.eqb c "z"); [now apply IH in H|].
  destruct (Ascii.eqb c "V"); discriminate.
Qed.

(** X10. The first value of [getopt_long] that is neither [-p] nor [-z]
    decides how [main] ends, before any file is looked at: help and
    version end with status 0, anything else with [EXIT_USAGE]. *)
Theorem first_other_option_decides (ps rest : list ascii) (c : ascii)
    (args : list string) (out : SINK) :
  forallb is_flag ps = true -> is_flag c = false ->
  main os (ps ++ c :: rest) args out =
  inl (if Ascii.eqb c "h" then Help
       else if Ascii.eqb c "V" then Version else Bad_option)
  /\ status (main os (ps ++ c :: rest) args out) =
     Some (if Ascii.eqb c "h" || Ascii.eqb c "V"
           then EXIT_SUCCESS else EXIT_USAGE).
Proof.
  intros Hps Hc. unfold main, main_checks.
  rewrite getopt_loop_stops by assumption.
  split; [reflexivity|].
  destruct (Ascii.eqb c "h"); [reflexivity|].
  destruct (Ascii.eqb c "V"); reflexivity.
Qed.

(** ** The checks of [main] *)


(** A name passes [validate_file_access] when it is ["-"], or when
    [stat] finds a regular file, a FIFO or a character device that
    [access] reports readable; the description plays no part. *)
Lemma validate_passes (f d : string) :
  validate_file_access os f d = None <->
  (f = "-" \/
   exists st, stat os f = Some st
     /\ S_ISREG (st_mode st) || S_ISFIFO (st_mode st) || S_ISCHR (st_mode st)
        = true
     /\ access_R_OK os f = true).
Proof.
  unfold validate_file_access.
  destruct (String.eqb_spec f "-") as [->|Hf]; [split; auto|].
  destruct (stat os f) as [st|].
  - split.
    + intros H. right. exists st. split; [reflexivity|].
      destruct (S_ISREG (st_mode st)), (S_ISFIFO (st_mode st)),
        (S_ISCHR (st_mode st)), (access_R_OK os f);
        simpl in *; try discriminate; now split.
    + intros [H|[st' [E [H1 H2]]]]; [contradiction|].
      injection E as <-. rewrite H2.
      destruct (S_ISREG (st_mode st)), (S_ISFIFO (st_mode st)),
        (S_ISCHR (st_mode st)); simpl in *; try discriminate; reflexivity.
  - split; [discriminate|].
    intros [H|[st' [E _]]]; [contradiction | discriminate].
Qed.

(** X11. [main] calls [xor_files] only after every check has passed: the
    options were [-p] and [-z] only, there are exactly two names, each is
    ["-"] or a readable regular file, FIFO or character device, they are
    not both ["-"], and they do not name the same file. *)
Theorem main_passes_on_checked_names (opts : list ascii) (args : list string)
    (fl : flags) (file1 file2 : string) :
  main_checks os opts args = inr (fl, file1, file2) ->
  args = [file1; file2]
  /\ forallb is_flag opts = true
  /\ fl = mkFlags (existsb (Ascii.eqb "p") opts) (existsb (Ascii.eqb "z") opts)
  /\ ~ (file1 = "-" /\ file2 = "-")
  /\ is_same_file os file1 file2 = false
  /\ (forall f, f = file1 \/ f = file2 ->
        f = "-" \/
        exists st, stat os f = Some st
          /\ S_ISREG (st_mode st) || S_ISFIFO (st_mode st)
             || S_ISCHR (st_mode st) = true
          /\ access_R_OK os f = true).
Proof.
  unfold main_checks.
  destruct (getopt_loop opts (mkFlags false false)) as [e|fl'] eqn:Hopt;
    [discriminate|].
  pose proof (getopt_loop_done _ _ _ Hopt) as Hflags.
  rewrite getopt_loop_flags in Hopt by assumption.
  injection Hopt as <-. cbn [show_progress preserve orb].
  destruct args as [|a [|b [|x args]]]; try discriminate.
  destruct (validate_file_access os a "first input file") as [[m k]|] eqn:Ha;
    [discriminate|].
  destruct (validate_file_access os b "second input file") as [[m k]|] eqn:Hb;
    [discriminate|].
  destruct (String.eqb_spec a "-") as [Ea|Ea];
    destruct (String.eqb_spec b "-") as [Eb|Eb]; cbn [Nat.add Nat.ltb Nat.leb];
    try discriminate.
  all: destruct (is_same_file os a b) eqn:Hsame; [discriminate|].
  all: intros H; injection H as <- <- <-.
  all: repeat split; try reflexivity; try assumption.
  all: try (intros [H1 H2]; contradiction).
  all: intros f [->| ->]; eapply validate_passes; eassumption.
Qed.
Lemma main_checks_pass (opts : list ascii) (file1 file2 : string) :
  forallb is_flag opts = true ->
  validate_file_access os file1 "first input file" = None ->
  validate_file_access os file2 "second input file" = None ->
  ~ (file1 = "-" /\ file2 = "-") ->
  is_same_file os file1 file2 = false ->
  main_checks os opts [file1; file2] =
  inr (mkFlags (existsb (Ascii.eqb "p") opts) (existsb (Ascii.eqb "z") opts),
       file1, file2).
Proof.
  intros Hopts H1 H2 Hstdin Hsame. unfold main_checks.
  rewrite getopt_loop_flags by assumption. cbn [show_progress preserve orb].
  rewrite H1, H2, Hsame.
  destruct (String.eqb_spec file1 "-") as [E1|E1];
    destruct (String.eqb_spec file2 "-") as [E2|E2]; try reflexivity.
  exfalso. now apply Hstdin.
Qed.

(** ** Whole runs *)

Lemma open_stdin : Cli.open_input_stream os "-" = inl (stdin os).
Proof. reflexivity. Qed.

Lemma open_file (file : string) (s : FILE) :
  file <> "-" -> fopen_rb os file = inl s ->
  Cli.open_input_stream os file = inl s.
Proof.
  intros N O. unfold Cli.open_input_stream.
  apply String.eqb_neq in N. now rewrite N, O.
Qed.

(** X12. Two distinct readable regular files: [xor [-p] [-z] file1 file2]
    appends to [stdout] the output for the bytes the two streams deliver,
    with [-z] deciding on the trailing zeros, reads both streams to their
    end and exits with status 0. *)
Theorem two_files_run (opts : list ascii) (file1 file2 : string)
    (st1 st2 : stat_t) (s1 s2 : FILE) (pre : list byte) (c : nat) :
  forallb is_flag opts = true ->
  file1 <> "-" -> file2 <> "-" ->
  stat os file1 = Some st1 -> stat os file2 = Some st2 ->
  st_mode st1 = S_IFREG -> st_mode st2 = S_IFREG ->
  access_R_OK os file1 = true -> access_R_OK os file2 = true ->
  (st_dev st1, st_ino st1) <> (st_dev st2, st_ino st2) ->
  fopen_rb os file1 = inl s1 -> fopen_rb os file2 = inl s2 ->
  exists T,
    xor (existsb (Ascii.eqb "z") opts) (pending s1) (pending s2) = Some T
    /\ main os opts [file1; file2] (mkSINK pre None c)
       = inr (Returned
                (mkSINK (pre ++ T) None (match T with [] => c | _ => S c end))
                (drained s1) (drained s2))
    /\ status (main os opts [file1; file2] (mkSINK pre None c))
       = Some EXIT_SUCCESS.
Proof.
  intros Hopts N1 N2 St1 St2 M1 M2 A1 A2 Hino O1 O2.
  assert (Hsame : is_same_file os file1 file2 = false).
  { unfold is_same_file.
    apply String.eqb_neq in N1, N2. rewrite N1, N2, St1, St2. simpl.
    destruct (Z.eqb_spec (st_dev st1) (st_dev st2)) as [Ed|Ed];
      [|reflexivity].
    destruct (Z.eqb_spec (st_ino st1) (st_ino st2)) as [Ei|Ei];
      [|reflexivity].
    exfalso. apply Hino. now rewrite Ed, Ei. }
  assert (Hchecks :
    main_checks os opts [file1; file2] =
    inr (mkFlags (existsb (Ascii.eqb "p") opts)
           (existsb (Ascii.eqb "z") opts), file1, file2)).
  { apply main_checks_pass; try assumption.
    - apply validate_passes. right. exists st1.
      repeat split; try assumption. now rewrite M1.
    - apply validate_passes. right. exists st2.
      repeat split; try assumption. now rewrite M2.
    - intros [E _]. contradiction. }
  destruct (xor_files_unlimited (existsb (Ascii.eqb "z") opts) s1 s2 pre c)
    as [T [HT Hrun]].
  exists T. split; [exact HT|].
  unfold main. rewrite Hchecks.
  unfold Cli.xor_files, Cli.open_input_stream.
  apply String.eqb_neq in N1, N2. rewrite N1, N2, O1, O2.
  cbn [preserve]. rewrite Hrun. now split.
Qed.

(** X13. ["-"] can stand for either input: with a readable regular file
    as the other one and a [stdin] that ends, the run XORs the file with
    what [stdin] delivers and returns, and the bytes written are the same
    in both orders. *)
Theorem stdin_as_either_input (opts : list ascii) (file : string)
    (st : stat_t) (s : FILE) (pre : list byte) (c : nat) :
  forallb is_flag opts = true ->
  file <> "-" ->
  stat os file = Some st ->
  st_mode st = S_IFREG ->
  access_R_OK os file = true ->
  fopen_rb os file = inl s ->
  exists T,
    xor (existsb (Ascii.eqb "z") opts) (pending s) (pending (stdin os))
    = Some T
    /\ main os opts [file; "-"] (mkSINK pre None c)
       = inr (Returned
                (mkSINK (pre ++ T) None (match T with [] => c | _ => S c end))
                (drained s) (drained (stdin os)))
    /\ main os opts ["-"; file] (mkSINK pre None c)
       = inr (Returned
                (mkSINK (pre ++ T) None (match T with [] => c | _ => S c end))
                (drained (stdin os)) (drained s)).
Proof.
  intros Hopts Nf St M A O.
  assert (Hv : forall d, validate_file_access os file d = None).
  { intros d. apply validate_passes. right. exists st.
    repeat split; try assumption. now rewrite M. }
  assert (Hs : forall d, validate_file_access os "-" d = None)
    by reflexivity.
  assert (Hsame1 : is_same_file os file "-" = false)
    by (unfold is_same_file; now rewrite orb_true_r).
  assert (Hsame2 : is_same_file os "-" file = false) by reflexivity.
  assert (H1 : main_checks os opts [file; "-"] =
               inr (mkFlags (existsb (Ascii.eqb "p") opts)
                      (existsb (Ascii.eqb "z") opts), file, "-")).
  { apply main_checks_pass; auto. intros [E _]. contradiction. }
  assert (H2 : main_checks os opts ["-"; file] =
               inr (mkFlags (existsb (Ascii.eqb "p") opts)
                      (existsb (Ascii.eqb "z") opts), "-", file)).
  { apply main_checks_pass; auto. intros [_ E]. contradiction. }
  destruct (xor_files_unlimited (existsb (Ascii.eqb "z") opts)
              s (stdin os) pre c) as [T [HT Hrun1]].
  destruct (xor_files_unlimited (existsb (Ascii.eqb "z") opts)
              (stdin os) s pre c) as [T' [HT' Hrun2]].
  assert (E : T' = T).
  { rewrite xor_spec in HT, HT'. rewrite naive_xor_comm in HT'.
    rewrite HT in HT'. now injection HT'. }
  subst T'. exists T. split; [exact HT|].
  unfold main. rewrite H1, H2.
  unfold Cli.xor_files.
  rewrite open_stdin, (open_file file s Nf O). cbn [preserve].
  rewrite Hrun1, Hrun2. now split.
Qed.

(** ** Rejected command lines *)

(** X14. ["-"] for both inputs is refused with [EXIT_USAGE], whatever the
    system holds: [stdin] cannot be read twice. *)
Theorem stdin_twice_is_refused (opts : list ascii) (out : SINK) :
  forallb is_flag opts = true ->
  main os opts ["-"; "-"] out
  = inl (Die "cannot read multiple files from stdin" EXIT_USAGE).
Proof.
  intros Hopts. unfold main, main_checks.
  now rewrite getopt_loop_flags by assumption.
Qed.

(** X15. Two names of one file, the same name twice or two hard links, are
    refused with [EXIT_USAGE] once both have passed validation. *)
Theorem same_file_is_refused (opts : list ascii) (file1 file2 : string)
    (st1 st2 : stat_t) (out : SINK) :
  forallb is_flag opts = true ->
  file1 <> "-" -> file2 <> "-" ->
  stat os file1 = Some st1 -> stat os file2 = Some st2 ->
  S_ISREG (st_mode st1) || S_ISFIFO (st_mode st1) || S_ISCHR (st_mode st1)
  = true ->
  S_ISREG (st_mode st2) || S_ISFIFO (st_mode st2) || S_ISCHR (st_mode st2)
  = true ->
  access_R_OK os file1 = true -> access_R_OK os file2 = true ->
  st_dev st1 = st_dev st2 -> st_ino st1 = st_ino st2 ->
  main os opts [file1; file2] out
  = inl (Die "cannot use the same file for both inputs" EXIT_USAGE).
Proof.
  intros Hopts N1 N2 St1 St2 M1 M2 A1 A2 Ed Ei.
  unfold main, main_checks.
  rewrite getopt_loop_flags by assumption.
  assert (H1 : validate_file_access os file1 "first input file" = None)
    by (apply validate_passes; right; exists st1; now repeat split).
  assert (H2 : validate_file_access os file2 "second input file" = None)
    by (apply validate_passes; right; exists st2; now repeat split).
  rewrite H1, H2. unfold is_same_file.
  apply String.eqb_neq in N1, N2. rewrite N1, N2, St1, St2, Ed, Ei.
  now rewrite !Z.eqb_refl.
Qed.

(** X16. The check for one file under two names does not depend on the order
    of the names. *)
Theorem is_same_file_symmetric (file1 file2 : string) :
  is_same_file os file1 file2 = is_same_file os file2 file1.
Proof.
  unfold is_same_file. rewrite (orb_comm (file1 =? "-")).
  destruct ((file2 =? "-") || (file1 =? "-")); [reflexivity|].
  destruct (stat os file1) as [st1|], (stat os file2) as [st2|];
    try reflexivity.
  now rewrite (Z.eqb_sym (st_dev st1)), (Z.eqb_sym (st_ino st1)).
Qed.

(** ** Exit status *)



End CommandLine.

(** ** Worked command lines, on [Cli.example_os] *)

Section WorkedCommandLines.

Local Open Scope string_scope.

Lemma help_after_z :
  forallb Cli.is_flag ["z"%char] = true
  /\ Cli.is_flag "h" = false
  /\ Cli.main Cli.example_os (["z"%char] ++ "h"%char :: ["p"%char]) ["a"]
       fresh_stdout
     = inl (if Ascii.eqb "h" "h" then Cli.Help
            else if Ascii.eqb "h" "V" then Cli.Version else Cli.Bad_option)
  /\ Cli.status
       (Cli.main Cli.example_os (["z"%char] ++ "h"%char :: ["p"%char]) ["a"]
          fresh_stdout)
     = Some (if Ascii.eqb "h" "h" || Ascii.eqb "h" "V"
             then EXIT_SUCCESS else EXIT_USAGE).
Proof.
  split; [reflexivity|]. split; [reflexivity|].
  apply (first_other_option_decides Cli.example_os
           ["z"%char] ["p"%char] "h"%char ["a"] fresh_stdout);
    reflexivity.
Defined.

Lemma checks_pass_on_a_b :
  Cli.main_checks Cli.example_os ["z"%char] ["a"; "b"]
  = inr (Cli.mkFlags false true, "a", "b")
  /\ ["a"; "b"] = ["a"; "b"]
  /\ forallb Cli.is_flag ["z"%char] = true
  /\ Cli.mkFlags false true
     = Cli.mkFlags (existsb (Ascii.eqb "p") ["z"%char])
         (existsb (Ascii.eqb "z") ["z"%char])
  /\ ~ ("a" = "-" /\ "b" = "-")
  /\ Cli.is_same_file Cli.example_os "a" "b" = false
  /\ (forall f, f = "a" \/ f = "b" ->
        f = "-" \/
        exists st, Cli.stat Cli.example_os f = Some st
          /\ Cli.S_ISREG (Cli.st_mode st) || Cli.S_ISFIFO (Cli.st_mode st)
             || Cli.S_ISCHR (Cli.st_mode st) = true
          /\ Cli.access_R_OK Cli.example_os f = true).
Proof.
  split; [reflexivity|].
  apply (main_passes_on_checked_names Cli.example_os ["z"%char] ["a"; "b"]
           (Cli.mkFlags false true) "a" "b").
  reflexivity.
Defined.

Lemma a_xor_b_with_z :
  forallb Cli.is_flag ["z"%char] = true
  /\ "a" <> "-" /\ "b" <> "-"
  /\ Cli.stat Cli.example_os "a" = Some (Cli.mkStat 1 10 Cli.S_IFREG)
  /\ Cli.stat Cli.example_os "b" = Some (Cli.mkStat 1 11 Cli.S_IFREG)
  /\ Cli.access_R_OK Cli.example_os "a" = true
  /\ Cli.access_R_OK Cli.example_os "b" = true
  /\ Cli.fopen_rb Cli.example_os "a" = inl (mkFILE [x41; x42] false false false)
  /\ Cli.fopen_rb Cli.example_os "b" = inl (mkFILE [x01] false false false)
  /\ exists T,
       xor (existsb (Ascii.eqb "z") ["z"%char]) [x41; x42] [x01] = Some T
       /\ Cli.main Cli.example_os ["z"%char] ["a"; "b"] (mkSINK [] None 0)
          = inr (Returned
                   (mkSINK ([] ++ T)%list None
                      (match T with [] => 0 | _ => 1 end))
                   (drained (mkFILE [x41; x42] false false false))
                   (drained (mkFILE [x01] false false false)))
       /\ Cli.status
            (Cli.main Cli.example_os ["z"%char] ["a"; "b"] (mkSINK [] None 0))
          = Some EXIT_SUCCESS.
Proof.
  repeat (split; [reflexivity || discriminate|]).
  apply (two_files_run Cli.example_os ["z"%char] "a" "b"
           (Cli.mkStat 1 10 Cli.S_IFREG) (Cli.mkStat 1 11 Cli.S_IFREG)
           (mkFILE [x41; x42] false false false)
           (mkFILE [x01] false false false) [] 0);
    try reflexivity; discriminate.
Defined.

Lemma a_xor_stdin :
  forallb Cli.is_flag [] = true
  /\ "a" <> "-"
  /\ Cli.stat Cli.example_os "a" = Some (Cli.mkStat 1 10 Cli.S_IFREG)
  /\ Cli.access_R_OK Cli.example_os "a" = true
  /\ Cli.fopen_rb Cli.example_os "a" = inl (mkFILE [x41; x42] false false false)
  /\ exists T,
       xor (existsb (Ascii.eqb "z") []) [x41; x42] [x01; x00] = Some T
       /\ Cli.main Cli.example_os [] ["a"; "-"] (mkSINK [] None 0)
          = inr (Returned
                   (mkSINK ([] ++ T)%list None
                      (match T with [] => 0 | _ => 1 end))
                   (drained (mkFILE [x41; x42] false false false))
                   (drained (Cli.stdin Cli.example_os)))
       /\ Cli.main Cli.example_os [] ["-"; "a"] (mkSINK [] None 0)
          = inr (Returned
                   (mkSINK ([] ++ T)%list None
                      (match T with [] => 0 | _ => 1 end))
                   (drained (Cli.stdin Cli.example_os))
                   (drained (mkFILE [x41; x42] false false false))).
Proof.
  repeat (split; [reflexivity || discriminate|]).
  apply (stdin_as_either_input Cli.example_os [] "a"
           (Cli.mkStat 1 10 Cli.S_IFREG)
           (mkFILE [x41; x42] false false false) [] 0);
    try reflexivity; discriminate.
Defined.

Lemma stdin_twice_with_p :
  forallb Cli.is_flag ["p"%char] = true
  /\ Cli.main Cli.example_os ["p"%char] ["-"; "-"] fresh_stdout
     = inl (Cli.Die "cannot read multiple files from stdin" EXIT_USAGE).
Proof.
  split; [reflexivity|].
  apply (stdin_twice_is_refused Cli.example_os ["p"%char] fresh_stdout).
  reflexivity.
Defined.

Lemma a_and_its_link :
  forallb Cli.is_flag [] = true
  /\ "a" <> "-" /\ "link" <> "-"
  /\ Cli.stat Cli.example_os "a" = Some (Cli.mkStat 1 10 Cli.S_IFREG)
  /\ Cli.stat Cli.example_os "link" = Some (Cli.mkStat 1 10 Cli.S_IFREG)
  /\ Cli.access_R_OK Cli.example_os "a" = true
  /\ Cli.access_R_OK Cli.example_os "link" = true
  /\ Cli.main Cli.example_os [] ["a"; "link"] fresh_stdout
     = inl (Cli.Die "cannot use the same file for both inputs" EXIT_USAGE).
Proof.
  repeat (split; [reflexivity || discriminate|]).
  apply (same_file_is_refused Cli.example_os [] "a" "link"
           (Cli.mkStat 1 10 Cli.S_IFREG) (Cli.mkStat 1 10 Cli.S_IFREG)
           fresh_stdout);
    try reflexivity; discriminate.
Defined.

Lemma sigint_exit_code :
  In (Cli.SIGINT, Cli.Handler) Cli.setup_signal_handling
  /\ exists msg,
       Cli.signal_handler Cli.SIGINT = Some (msg, (128 + Cli.SIGINT)%Z)
       /\ msg <> "received signal".
Proof.
  assert (H : In (Cli.SIGINT, Cli.Handler) Cli.setup_signal_handling)
    by (simpl; right; left; reflexivity).
  split; [exact H|].
  exact (installed_signals_exit_code Cli.SIGINT H).
Defined.

End WorkedCommandLines.

(** * The diagnostic stream *)

Section Progress.

Variable N : nat.
Hypothesis N_pos : 0 < N.
Variable g : globals.
Hypothesis running : interrupted g = false.

Lemma loop_progress_step (show : bool) (l : locals) :
  loop_progress N g show l =
  match loop_step N g l with
  | Break _ => []
  | Continue l' =>
      progress_every_16_chunks N show l' ++ loop_progress N g show l'
  | Undefined => []
  end.
Proof.
  rewrite loop_progress_equation_1. unfold inspect. simpl.
  destruct (loop_step N g l); reflexivity.
Qed.

Lemma loop_progress_exhausted (show : bool) (l : locals) :
  pending (stream1 l) = [] -> pending (stream2 l) = [] ->
  loop_progress N g show l = [].
Proof.
  intros P1 P2. rewrite loop_progress_step. unfold loop_step.
  rewrite running, iteration_spec, P1, P2.
  now rewrite firstn_nil.
Qed.

Lemma loop_progress_silent (l : locals) : loop_progress N g false l = [].
Proof.
  remember (remaining l) as n eqn:Hn. revert l Hn.
  induction n as [n IH] using lt_wf_ind. intros l Hn.
  rewrite loop_progress_step.
  destruct (loop_step N g l) as [l'|l'|] eqn:Hstep; try reflexivity.
  unfold progress_every_16_chunks. cbn [andb app].
  apply (IH (remaining l')); [|reflexivity].
  subst n. unfold loop_step in Hstep. rewrite running in Hstep.
  rewrite iteration_spec in Hstep.
  destruct ((length (firstn N (pending (stream1 l))) =? 0)
            && (length (firstn N (pending (stream2 l))) =? 0)) eqn:Hz;
    [discriminate|].
  injection Hstep as <-. unfold remaining. cbn [stream1 stream2].
  rewrite !pending_after_fread, !length_skipn.
  rewrite !length_firstn in Hz. apply andb_false_iff in Hz.
  destruct Hz as [Hz|Hz]; apply Nat.eqb_neq in Hz; lia.
Qed.

(** A count of whole blocks is a multiple of sixteen blocks exactly when
    the number of blocks is a multiple of sixteen. *)
Lemma blocks_mod_16 (q : nat) :
  (q * N) mod (N * 16) = 0 <-> q mod 16 = 0.
Proof.
  rewrite (Nat.mul_comm q N), Nat.Div0.mul_mod_distr_l.
  split; [|intros ->; lia].
  intros H. apply Nat.eq_mul_0 in H. destruct H as [H|H]; [lia | exact H].
Qed.

(** Whole blocks and a part of a block are never a multiple of sixteen
    blocks. *)
Lemma part_block_mod_16 (q m : nat) :
  0 < m < N -> (q * N + m) mod (N * 16) <> 0.
Proof.
  intros Hm H.
  apply Nat.Lcm0.mod_divide in H.
  assert (HN : Nat.divide N (q * N + m)).
  { eapply Nat.divide_trans; [|exact H]. exists 16. lia. }
  assert (Hq : Nat.divide N (q * N)) by (exists q; reflexivity).
  apply (Nat.divide_add_cancel_r _ _ _ Hq) in HN.
  apply Nat.divide_pos_le in HN; lia.
Qed.

(** The multiples of sixteen among the block counts [q + 1 .. q + d],
    one block at a time. *)
Lemma marks_step (f : nat -> message) (q d : nat) :
  1 <= d ->
  map f (seq (q / 16 + 1) ((q + d) / 16 - q / 16)) =
  (if S q mod 16 =? 0 then [f (S q / 16)] else [])
  ++ map f (seq (S q / 16 + 1) ((S q + (d - 1)) / 16 - S q / 16)).
Proof.
  intros Hd. replace (S q + (d - 1)) with (q + d) by lia.
  pose proof (Nat.div_mod_eq q 16) as Eq.
  pose proof (Nat.mod_upper_bound q 16 ltac:(lia)) as Bq.
  pose proof (Nat.div_mod_eq (S q) 16) as Es.
  pose proof (Nat.mod_upper_bound (S q) 16 ltac:(lia)) as Bs.
  pose proof (Nat.Div0.div_le_mono (S q) (q + d) 16 ltac:(lia)) as Hmono.
  destruct (Nat.eqb_spec (S q mod 16) 0) as [E|E].
  - assert (E1 : S q / 16 = q / 16 + 1) by lia.
    rewrite E1.
    replace ((q + d) / 16 - q / 16)
      with (S ((q + d) / 16 - (q / 16 + 1))) by lia.
    replace (q / 16 + 1 + 1) with (S (q / 16 + 1)) by lia. reflexivity.
  - assert (E1 : S q / 16 = q / 16) by lia.
    now rewrite E1.
Qed.

(** With [-p], from a state reached after [q] whole blocks, the loop
    prints one line at each multiple of sixteen blocks that the bytes
    still to come reach, and nothing else. *)
Lemma loop_progress_spec (l : locals) (q : nat) :
  bytes_processed l = q * N ->
  let m := Nat.max (length (pending (stream1 l)))
                   (length (pending (stream2 l))) in
  loop_progress N g true l =
  map (fun k => Processed (k * (N * 16)))
      (seq (q / 16 + 1) ((q + m / N) / 16 - q / 16)).
Proof.
  remember (remaining l) as n eqn:Hn. revert l q Hn.
  induction n as [n IH] using lt_wf_ind. intros l q Hn Hq m.
  destruct (Nat.lt_ge_cases m N) as [Hm|Hm].
  - (* less than a block is left: no line any more *)
    rewrite (Nat.div_small m N), Nat.add_0_r, Nat.sub_diag by assumption.
    cbn [seq map].
    rewrite loop_progress_step. unfold loop_step.
    rewrite running, iteration_spec.
    destruct ((length (firstn N (pending (stream1 l))) =? 0)
              && (length (firstn N (pending (stream2 l))) =? 0)) eqn:Hz;
      [reflexivity|].
    rewrite !length_firstn in *. apply andb_false_iff in Hz.
    rewrite loop_progress_exhausted;
      [| cbn [stream1]; rewrite pending_after_fread; apply skipn_all2; lia
       | cbn [stream2]; rewrite pending_after_fread; apply skipn_all2; lia].
    rewrite app_nil_r. unfold progress_every_16_chunks.
    cbn [bytes_processed andb]. rewrite Hq.
    assert (E : ((q * N + Nat.max (Nat.min N (length (pending (stream1 l))))
                                  (Nat.min N (length (pending (stream2 l)))))
                 mod (N * 16) =? 0) = false).
    { apply Nat.eqb_neq, part_block_mod_16.
      destruct Hz as [Hz|Hz]; apply Nat.eqb_neq in Hz; lia. }
    now rewrite E.
  - (* a whole block is read *)
    assert (Hd : 1 <= m / N).
    { apply (Nat.div_le_lower_bound m N 1); lia. }
    assert (Hrest : (m - N) / N = m / N - 1).
    { replace m with ((m - N) + 1 * N) at 2 by lia.
      rewrite Nat.div_add by lia. lia. }
    rewrite marks_step by assumption.
    rewrite loop_progress_step. unfold loop_step.
    rewrite running, iteration_spec.
    destruct ((length (firstn N (pending (stream1 l))) =? 0)
              && (length (firstn N (pending (stream2 l))) =? 0)) eqn:Hz.
    { apply andb_true_iff in Hz. destruct Hz as [H1 H2].
      apply Nat.eqb_eq in H1, H2. rewrite length_firstn in H1, H2. lia. }
    rewrite !length_firstn.
    replace (Nat.max (Nat.min N (length (pending (stream1 l))))
                     (Nat.min N (length (pending (stream2 l))))) with N by lia.
    assert (Hq' : bytes_processed l + N = S q * N) by (rewrite Hq; lia).
    f_equal.
    + unfold progress_every_16_chunks. cbn [bytes_processed andb].
      rewrite Hq'.
      destruct (Nat.eqb_spec (S q mod 16) 0) as [E|E].
      * assert (E' : ((S q * N) mod (N * 16) =? 0) = true)
          by now apply Nat.eqb_eq, blocks_mod_16.
        rewrite E'. cbn [progress]. do 2 f_equal.
        pose proof (Nat.div_mod_eq (S q) 16) as Es. rewrite E in Es.
        rewrite Es at 1. ring.
      * assert (E' : ((S q * N) mod (N * 16) =? 0) = false).
        { apply Nat.eqb_neq. intros H. now apply blocks_mod_16 in H. }
        now rewrite E'.
    + rewrite <- Hrest.
      match goal with
      | |- loop_progress N g true ?l' = _ =>
          rewrite (IH (remaining l')) with (l := l') (q := S q)
      end.
      * cbn [stream1 stream2]. rewrite !pending_after_fread, !length_skipn.
        replace (Nat.max (length (pending (stream1 l)) - N)
                         (length (pending (stream2 l)) - N))
          with (m - N) by lia.
        reflexivity.
      * subst n. unfold remaining. cbn [stream1 stream2].
        rewrite !pending_after_fread, !length_skipn. lia.
      * reflexivity.
      * cbn [bytes_processed]. exact Hq'.
Qed.

End Progress.

Lemma output_size_spec (preserve : bool) (data : list byte) :
  (if negb preserve && (0 <? length data)
   then strip data (length data) else Some (length data))
  = Some (length (final_output preserve data)).
Proof.
  destruct preserve; simpl; [reflexivity|].
  destruct (0 <? length data) eqn:E.
  - apply strip_spec.
  - apply Nat.ltb_ge in E. destruct data; [reflexivity | simpl in E; lia].
Qed.

Lemma engine_stderr_with_p (N : nat) (g : globals) (f1 f2 : FILE)
    (pre : list byte) (c : nat) :
  0 < N -> interrupted g = false ->
  let m := Nat.max (length (pending f1)) (length (pending f2)) in
  let T := final_output (preserve_zeros g)
             (naive_xor (pending f1) (pending f2)) in
  engine_stderr N g true f1 f2 (mkSINK pre None c) =
  Line "XORing input streams"
  :: map (fun k => Processed (k * (N * 16))) (seq 1 (m / (N * 16)))
  ++ [Complete m (length T) (preserve_zeros g)].
Proof.
  intros HN Hint m T. unfold engine_stderr.
  rewrite (loop_progress_spec N HN g Hint _ 0) by reflexivity.
  rewrite read_loop_spec by assumption.
  cbn [stream1 stream2 all_data total_size bytes_processed pending app
       progress].
  fold m. rewrite !Nat.add_0_l.
  replace (0 / 16) with 0 by reflexivity.
  rewrite Nat.sub_0_r, Nat.Div0.div_div.
  f_equal. f_equal.
  set (data := naive_xor (pending f1) (pending f2)) in *.
  replace m with (length data) by apply length_naive_xor.
  rewrite output_size_spec. fold T.
  destruct (0 <? length T) eqn:E; [|reflexivity].
  assert (Hbuf : firstn (length T) data = firstn (length T) T).
  { subst T. unfold final_output.
    destruct (preserve_zeros g); [reflexivity|].
    now rewrite firstn_trim, firstn_all. }
  rewrite (fwrite_firstn data T (length T) (length T) _ Hbuf).
  now rewrite fwrite_unlimited, Nat.eqb_refl.
Qed.

(** X18. With [-p], a run on two files prints "XORing input streams", then
    "processed n bytes" once for each whole multiple n of sixteen chunks
    (1 MiB) that the longer input reaches, in increasing order, then the
    summary with the length of the longer input and the number of bytes
    written. *)
Theorem progress_report (preserve : bool) (A B pre : list byte) (c : nat) :
  exists T,
    xor preserve A B = Some T
    /\ engine_stderr CHUNK_SIZE (startup preserve) true
         (open_input_stream A) (open_input_stream B) (mkSINK pre None c)
       = Line "XORing input streams"
         :: map (fun k => Processed (k * (CHUNK_SIZE * 16)))
              (seq 1 (Nat.max (length A) (length B) / (CHUNK_SIZE * 16)))
         ++ [Complete (Nat.max (length A) (length B)) (length T) preserve].
Proof.
  exists (final_output preserve (naive_xor A B)).
  split; [apply xor_spec|].
  apply (engine_stderr_with_p CHUNK_SIZE (startup preserve)
           (open_input_stream A) (open_input_stream B) pre c);
    [apply CHUNK_SIZE_pos | reflexivity].
Qed.

(** X19. Without [-p] nothing is printed unless the run dies, and then only
    the message of [die]: whatever the streams and the state of [stdout],
    the diagnostic stream holds the message of the death, or nothing. *)
Theorem quiet_without_p (preserve : bool) (f1 f2 : FILE) (out : SINK) :
  engine_stderr CHUNK_SIZE (startup preserve) false f1 f2 out =
  match xor_files (startup preserve) f1 f2 out with
  | Died msg _ _ => [Line msg]
  | _ => []
  end.
Proof.
  unfold engine_stderr, xor_files, xor_files_with.
  rewrite loop_progress_silent by (apply CHUNK_SIZE_pos || reflexivity).
  cbn [progress app].
  destruct (read_loop CHUNK_SIZE (startup preserve) (mkLocals f1 f2 [] 0 0))
    as [l|]; [|reflexivity].
  destruct (if negb (preserve_zeros (startup preserve)) && (0 <? total_size l)
            then strip (all_data l) (total_size l)
            else Some (total_size l)) as [output_size|]; [|reflexivity].
  destruct (0 <? output_size); [|reflexivity].
  destruct (fwrite (all_data l) output_size out) as [written out'].
  destruct (negb (written =? output_size)); reflexivity.
Qed.
